(** * Pool analytics of aerotropy-server: metrics engine, scoring pipeline,
    position sizing, rebalancing and the strategy pool cache.

    Numbers.  The analytics code computes with JavaScript numbers.  They are
    modelled as rationals [Q] extended with [NaN] ([num := option Q], [None]
    standing for [NaN]): rounding is abstracted away, every arithmetic
    operation propagates [NaN], and every comparison with [NaN] is [false],
    as in JavaScript.  Infinities are not represented: a division by zero
    yields [NaN] here (JavaScript gives [NaN] for [0/0] and an infinity for a
    non-zero numerator); on the paths the properties below rely on, the code
    guards its divisors.  Fields the code reads with [parseFloat] or
    [parseInt] are stored already parsed, which is the same value at every
    read.  A nullable metric ([number | null]) is an [option num].
    [estimateImpermanentLoss] takes a square root; it is modelled over the
    real numbers [R], where [sqrt] of a negative number is [0] (JavaScript
    gives [NaN]); its properties are stated for ratios above zero. *)

From Stdlib Require Import String Ascii QArith Qabs Qminmax Lqa Lia PeanoNat List Bool Permutation.
From Stdlib Require Reals Lra Qreals.
From Stdlib Require Import Qround Sorted.
Import ListNotations.

Open Scope Q_scope.

(** ** JavaScript numbers *)

Module Js.

Definition num := option Q.

Definition NaN : num := None.
Definition lit (q : Q) : num := Some q.

Definition isNaN (x : num) : bool :=
  match x with None => true | Some _ => false end.

Definition lift2 (f : Q -> Q -> Q) (x y : num) : num :=
  match x, y with Some a, Some b => Some (f a b) | _, _ => None end.

Definition add := lift2 Qplus.
Definition sub := lift2 Qminus.
Definition mul := lift2 Qmult.

Definition div (x y : num) : num :=
  match x, y with
  | Some a, Some b => if Qeq_bool b 0 then None else Some (a / b)
  | _, _ => None
  end.

Definition qltb (a b : Q) : bool := negb (Qle_bool b a).

Definition lt (x y : num) : bool :=
  match x, y with Some a, Some b => qltb a b | _, _ => false end.
Definition le (x y : num) : bool :=
  match x, y with Some a, Some b => Qle_bool a b | _, _ => false end.
Definition gt (x y : num) : bool := lt y x.
Definition ge (x y : num) : bool := le y x.

(** [a === b] on numbers: [NaN] equals nothing. *)
Definition strict_eq (x y : num) : bool :=
  match x, y with Some a, Some b => Qeq_bool a b | _, _ => false end.

(** [Math.abs] *)
Definition abs (x : num) : num := option_map Qabs x.

(** [Math.min(...xs)] / [Math.max(...xs)] on a non-empty array: [NaN] as soon
    as one element is [NaN]. *)
Definition min2 (x y : num) : num :=
  match x, y with Some a, Some b => Some (Qmin a b) | _, _ => None end.
Definition max2 (x y : num) : num :=
  match x, y with Some a, Some b => Some (Qmax a b) | _, _ => None end.

Definition min_list (xs : list num) : num :=
  match xs with [] => None | x :: r => fold_left min2 r x end.
Definition max_list (xs : list num) : num :=
  match xs with [] => None | x :: r => fold_left max2 r x end.

(** [xs.reduce((a, b) => a + b, 0)] *)
Definition sum (xs : list num) : num := fold_left add xs (lit 0).

(** [x ?? d] for a nullable number. *)
Definition coalesce (x : option num) (d : num) : num :=
  match x with Some v => v | None => d end.

End Js.

Import Js.

(** ** Data model (uniswap.service.ts) *)

(** One [poolDayData] entry, fields as read by [parseFloat]. *)
Record DailySnapshot := {
  date : Z;
  feesUSD : num;
  volumeUSD : num;
  tvlUSD : num;
}.

(** A pool of the subgraph feed.  [feeTier] is [parseInt(pool.feeTier || '0')],
    [createdAtTimestamp] is [None] when the field is absent or empty, else its
    [parseInt]. *)
Record Pool := {
  id : string;
  token0 : string;
  token1 : string;
  feeTier : num;
  totalValueLockedUSD : num;
  poolDayData : list DailySnapshot;
  createdAtTimestamp : option num;
}.

(** ** Metrics engine: [getUniswapPoolsWithAPR], per pool *)

(** The branch [pool.poolDayData.length > 0 && currentTVL > 0]. *)
Definition has_history (p : Pool) : bool :=
  Nat.ltb 0 (length (poolDayData p)) && gt (totalValueLockedUSD p) (lit 0).

(** The [validDays] filter predicate. *)
Definition isValidDay (d : DailySnapshot) : bool :=
  negb (isNaN (feesUSD d)) && negb (isNaN (tvlUSD d)) && gt (tvlUSD d) (lit 0).

(** The days the window metrics are computed from: [validDays] inside the
    branch, no day at all when the branch is not taken. *)
Definition validDays (p : Pool) : list DailySnapshot :=
  if has_history p then filter isValidDay (poolDayData p) else [].

(** [(parseFloat(day.feesUSD) / parseFloat(day.tvlUSD)) * 365 * 100] *)
Definition day_apr (d : DailySnapshot) : num :=
  mul (mul (div (feesUSD d) (tvlUSD d)) (lit 365)) (lit 100).

Definition mean (xs : list num) : num :=
  div (sum xs) (lit (Z.of_nat (length xs) # 1)).

(** Latest APR: [feesUSD(day0) / currentTVL * 365 * 100]. *)
Definition latest_apr (p : Pool) : option num :=
  if has_history p then
    match poolDayData p with
    | [] => None
    | d0 :: _ =>
        if negb (isNaN (feesUSD d0)) && ge (feesUSD d0) (lit 0)
        then Some (mul (mul (div (feesUSD d0) (totalValueLockedUSD p)) (lit 365)) (lit 100))
        else None
    end
  else None.

(** [averageApr7d] *)
Definition averageApr7d (p : Pool) : option num :=
  if has_history p then
    let vd := filter isValidDay (poolDayData p) in
    if Nat.ltb 0 (length vd) then Some (mean (map day_apr vd)) else None
  else None.

(** [averageVolume7d] *)
Definition averageVolume7d (p : Pool) : option num :=
  if has_history p then
    let vd := filter isValidDay (poolDayData p) in
    if Nat.ltb 0 (length vd) then Some (mean (map volumeUSD vd)) else None
  else None.

(** The window average APR as the spec words it: the arithmetic mean of
    [(feesUSD/tvlUSD)*365*100] over the given days, in exact arithmetic. *)
Fixpoint spec_apr_sum (ds : list DailySnapshot) : Q :=
  match ds with
  | [] => 0
  | d :: r =>
      match feesUSD d, tvlUSD d with
      | Some f, Some t => f / t * 365 * 100 + spec_apr_sum r
      | _, _ => 0
      end
  end.

Definition spec_mean_apr (ds : list DailySnapshot) : Q :=
  spec_apr_sum ds / (Z.of_nat (length ds) # 1).

(** A day valid in the sense of the spec: [feesUSD] and [tvlUSD] parse to
    non-negative numbers and [tvlUSD > 0]. *)
Definition spec_valid (d : DailySnapshot) : Prop :=
  exists f t, feesUSD d = Some f /\ 0 <= f /\ tvlUSD d = Some t /\ 0 < t.

(** A pool whose current TVL is [0] but whose only snapshot is well formed. *)
Definition day_10_1000 : DailySnapshot :=
  {| date := 19700; feesUSD := lit 10; volumeUSD := lit 5000; tvlUSD := lit 1000 |}.

Definition pool_zero_tvl : Pool :=
  {| id := "0xpool0"; token0 := ""; token1 := ""; feeTier := lit 3000;
     totalValueLockedUSD := lit 0; poolDayData := [day_10_1000];
     createdAtTimestamp := None |}.

(** The same snapshot in a pool with a positive current TVL. *)
Definition pool_tvl_1000 : Pool :=
  {| id := "0xpool1"; token0 := ""; token1 := ""; feeTier := lit 3000;
     totalValueLockedUSD := lit 1000; poolDayData := [day_10_1000];
     createdAtTimestamp := None |}.

(** ** Correlation estimator (token-correlation.utils.ts) *)

(** [toLowerCase] on the ASCII letters an address is made of. *)
Definition ascii_lower (c : ascii) : ascii :=
  let n := nat_of_ascii c in
  if Nat.leb 65 n && Nat.leb n 90 then ascii_of_nat (n + 32) else c.

Fixpoint toLowerCase (s : string) : string :=
  match s with
  | EmptyString => EmptyString
  | String c r => String (ascii_lower c) (toLowerCase r)
  end.

Open Scope string_scope.

Definition STABLE_TOKENS : list string := [
  (* USDC *)
  "0xa0b86991c6218b36c1d19d4a2e9eb0ce3606eb48"; "0x2791bca1f2de4661ed88a30c99a7a9449aa84174";
  "0x7f5c764cbc14f9669b88837ca1490cca17c31607"; "0xaf88d065e77c8cc2239327c5edb3a432268e5831";
  "0x833589fcd6edb6e08f4c7c32d4f71b54bda02913";
  (* USDT *)
  "0xdac17f958d2ee523a2206206994597c13d831ec7"; "0xc2132d05d31c914a87c6611c10748aeb04b58e8f";
  "0x94b008aa00579c1307b0ef2c499ad98a8ce58e58"; "0xfd086bc7cd5c481dcc9c85ebe478a1c0b69fcbb9";
  (* DAI *)
  "0x6b175474e89094c44da98b954eedeac495271d0f"; "0x8f3cf7ad23cd3cadbd9735aff958023239c6a063";
  "0xda10009cbd5d07dd0cecc66161fc93d7c9000da1"; "0x50c5725949a6f0c72e6c4a641f24049a917db0cb";
  (* WETH *)
  "0xc02aaa39b223fe8d0a0e5c4f27ead9083c756cc2"; "0x7ceb23fd6bc0add59e62ac25578270cff1b9f619";
  "0x4200000000000000000000000000000000000006"; "0x82af49447d8a07e3bd95bd0d56f35241523fbab1"].

Definition MAJOR_TOKENS : list string := List.app STABLE_TOKENS [
  (* WBTC *)
  "0x2260fac5e5542a773aa44fbcfedf7c193bc2c599"; "0x1bfd67037b42cf73acf2047067bd4f2c47d9bfd6";
  "0x68f180fcce6836688e9084f035309e29bf0a2095"; "0x2f2a2543b76a4166549f7aab2e75bef0aefc5b0f";
  "0x1a35ee4640b0a3b87705b0a4b45d227ba60ca2ad";
  (* LINK *)
  "0x514910771af9ca656af840dff83e8264ecf986ca"; "0xb0897686c545045afc77cf20ec7a532e3120e0f1";
  "0x350a791bfc2c21f9ed5d10980dad2e2638ffa7f6"; "0xf97f4df75117a78c1a5a0dbb814af92458539fb4";
  (* UNI *)
  "0x1f9840a85d5af5bf1d1762f925bdaddc4201f984"; "0xb33eaad8d922b1083446dc23f610c2567fb5180f";
  "0xfa7f8980b0f1e64a2062791cc3b0871572f1f7f0"].

Close Scope string_scope.

(** [TABLE[address] || false]: own keys of the table (the subgraph addresses
    never name an [Object.prototype] member). *)
Definition lookup_flag (table : list string) (addr : string) : bool :=
  existsb (String.eqb addr) table.

Record CorrelationOptions := {
  preferStableCorrelation : bool;
  preferStableBase : bool;
  avoidExoticPairs : bool;
}.

Definition calculateTokenCorrelation (p : Pool) (o : CorrelationOptions) : num :=
  let token0Address := toLowerCase (token0 p) in
  let token1Address := toLowerCase (token1 p) in
  let isToken0Stable := lookup_flag STABLE_TOKENS token0Address in
  let isToken1Stable := lookup_flag STABLE_TOKENS token1Address in
  let bothStable := isToken0Stable && isToken1Stable in
  let isToken0Major := lookup_flag MAJOR_TOKENS token0Address in
  let isToken1Major := lookup_flag MAJOR_TOKENS token1Address in
  let hasMajorToken := isToken0Major || isToken1Major in
  let hasStableToken := isToken0Stable || isToken1Stable in
  if bothStable then
    (if preferStableCorrelation o then lit 1 else lit (95 # 100))
  else if hasStableToken then
    (if preferStableBase o then lit (9 # 10) else lit (8 # 10))
  else if hasMajorToken then lit (6 # 10)
  else
    (if avoidExoticPairs o then lit (1 # 10) else lit (3 # 10)).

Definition meetsCorrelationCriteria (p : Pool) (minC maxC : num)
    (o : CorrelationOptions) : bool :=
  let correlation := calculateTokenCorrelation p o in
  ge correlation minC && le correlation maxC.

(** [Array.prototype.includes] compares with SameValueZero. *)
Definition same_value_zero (x y : num) : bool :=
  match x, y with
  | None, None => true
  | Some a, Some b => Qeq_bool a b
  | _, _ => false
  end.

Definition isPreferredFeeTier (p : Pool) (preferredFeeTiers : option (list num)) : bool :=
  match preferredFeeTiers with
  | None | Some [] => true
  | Some tiers => existsb (same_value_zero (feeTier p)) tiers
  end.

(** ** Scoring and filtering pipeline: [getBestPoolsWithScore] *)

(** A pool as returned by [getUniswapPoolsWithAPR], with the fields the
    pipeline and its consumers read; [score] and [correlation] are
    [undefined] ([None]) until the pool has been scored. *)
Record PoolWithAPR := {
  base : Pool;
  apr : option num;
  aprStdDev : option num;
  tvlTrend : option num;
  volumeTrend : option num;
  score : option num;
  correlation : option num;
}.

(** The options after destructuring, defaults applied. *)
Record BestPoolsOptions := {
  minTVL : num;
  minAPR : num;
  topN : Z;
  maxPoolAgeDays : option num;
  preferredFeeTiers : option (list num);
  minTokenCorrelation : num;
  maxTokenCorrelation : num;
  correlationWeight : num;
  corrOpts : CorrelationOptions;
  aprWeight : num;
  tvlWeight : num;
  volatilityWeight : num;
  tvlTrendWeight : num;
  volumeTrendWeight : num;
}.

Definition set_minTVL (o : BestPoolsOptions) (t : num) : BestPoolsOptions :=
  {| minTVL := t; minAPR := minAPR o; topN := topN o;
     maxPoolAgeDays := maxPoolAgeDays o; preferredFeeTiers := preferredFeeTiers o;
     minTokenCorrelation := minTokenCorrelation o;
     maxTokenCorrelation := maxTokenCorrelation o;
     correlationWeight := correlationWeight o; corrOpts := corrOpts o;
     aprWeight := aprWeight o; tvlWeight := tvlWeight o;
     volatilityWeight := volatilityWeight o; tvlTrendWeight := tvlTrendWeight o;
     volumeTrendWeight := volumeTrendWeight o |}.

Definition normalize (v mn mx : num) : num :=
  if gt mx mn then div (sub v mn) (sub mx mn) else lit 0.

(** JavaScript truthiness of a number. *)
Definition truthy (x : num) : bool :=
  match x with None => false | Some q => negb (Qeq_bool q 0) end.

(** The [.filter] callback; [now] is [Date.now()]. *)
Definition pool_filter (o : BestPoolsOptions) (now : Q) (p : PoolWithAPR) : bool :=
  let meetsBasicCriteria :=
    ge (coalesce (apr p) (lit 0)) (minAPR o) &&
    ge (totalValueLockedUSD (base p)) (minTVL o) in
  let meetsAgeRequirement :=
    match maxPoolAgeDays o with
    | Some m =>
        if negb (truthy m) then true
        else match createdAtTimestamp (base p) with
             | None => true
             | Some ts =>
                 le (div (sub (lit (now / 1000)) ts) (lit (60 * 60 * 24))) m
             end
    | None => true
    end in
  let meetsFeeRequirement := isPreferredFeeTier (base p) (preferredFeeTiers o) in
  let meetsCorrelationRequirements :=
    meetsCorrelationCriteria (base p) (minTokenCorrelation o)
      (maxTokenCorrelation o) (corrOpts o) in
  meetsBasicCriteria && meetsAgeRequirement && meetsFeeRequirement &&
  meetsCorrelationRequirements.

(** The min/max pairs computed over all fetched pools. *)
Record Bounds := {
  minApr : num; maxApr : num;
  minTvl : num; maxTvl : num;
  minVol : num; maxVol : num;
  minTvlTrend : num; maxTvlTrend : num;
  minVolumeTrend : num; maxVolumeTrend : num;
  minCorrelation : num; maxCorrelation : num;
}.

Definition aprs_of (pools : list PoolWithAPR) := map (fun p => coalesce (apr p) (lit 0)) pools.
Definition tvls_of (pools : list PoolWithAPR) := map (fun p => totalValueLockedUSD (base p)) pools.
Definition vols_of (pools : list PoolWithAPR) := map (fun p => coalesce (aprStdDev p) (lit 0)) pools.
Definition tvlTrends_of (pools : list PoolWithAPR) := map (fun p => coalesce (tvlTrend p) (lit 0)) pools.
Definition volumeTrends_of (pools : list PoolWithAPR) := map (fun p => coalesce (volumeTrend p) (lit 0)) pools.
Definition correlations_of (o : BestPoolsOptions) (pools : list PoolWithAPR) :=
  map (fun p => calculateTokenCorrelation (base p) (corrOpts o)) pools.

Definition bounds_of (o : BestPoolsOptions) (pools : list PoolWithAPR) : Bounds :=
  {| minApr := min_list (aprs_of pools); maxApr := max_list (aprs_of pools);
     minTvl := min_list (tvls_of pools); maxTvl := max_list (tvls_of pools);
     minVol := min_list (vols_of pools); maxVol := max_list (vols_of pools);
     minTvlTrend := min_list (tvlTrends_of pools);
     maxTvlTrend := max_list (tvlTrends_of pools);
     minVolumeTrend := min_list (volumeTrends_of pools);
     maxVolumeTrend := max_list (volumeTrends_of pools);
     minCorrelation := min_list (correlations_of o pools);
     maxCorrelation := max_list (correlations_of o pools) |}.

(** The normalized terms of one pool: APR, TVL, inverted volatility, TVL
    trend, volume trend, correlation. *)
Definition aprNorm (b : Bounds) (p : PoolWithAPR) : num :=
  normalize (coalesce (apr p) (lit 0)) (minApr b) (maxApr b).
Definition tvlNorm (b : Bounds) (p : PoolWithAPR) : num :=
  normalize (totalValueLockedUSD (base p)) (minTvl b) (maxTvl b).
Definition volNorm (b : Bounds) (p : PoolWithAPR) : num :=
  sub (lit 1) (normalize (coalesce (aprStdDev p) (lit 0)) (minVol b) (maxVol b)).
Definition tvlTrendNorm (b : Bounds) (p : PoolWithAPR) : num :=
  normalize (coalesce (tvlTrend p) (lit 0)) (minTvlTrend b) (maxTvlTrend b).
Definition volumeTrendNorm (b : Bounds) (p : PoolWithAPR) : num :=
  normalize (coalesce (volumeTrend p) (lit 0)) (minVolumeTrend b) (maxVolumeTrend b).
Definition correlationNorm (o : BestPoolsOptions) (b : Bounds) (p : PoolWithAPR) : num :=
  normalize (calculateTokenCorrelation (base p) (corrOpts o))
    (minCorrelation b) (maxCorrelation b).

(** The [.map] callback: the composite score. *)
Definition score_pool (o : BestPoolsOptions) (b : Bounds) (p : PoolWithAPR) : PoolWithAPR :=
  let cw := correlationWeight o in
  let weightSum :=
    add (add (add (add (add (aprWeight o) (tvlWeight o)) (volatilityWeight o))
                   (tvlTrendWeight o)) (volumeTrendWeight o)) (abs cw) in
  let weightAdjustment :=
    if negb (strict_eq cw (lit 0)) then div (sub (lit 1) (abs cw)) weightSum
    else lit 1 in
  let sc :=
    add (add (add (add (add
      (mul (mul (aprNorm b p) (aprWeight o)) weightAdjustment)
      (mul (mul (tvlNorm b p) (tvlWeight o)) weightAdjustment))
      (mul (mul (volNorm b p) (volatilityWeight o)) weightAdjustment))
      (mul (mul (tvlTrendNorm b p) (tvlTrendWeight o)) weightAdjustment))
      (mul (mul (volumeTrendNorm b p) (volumeTrendWeight o)) weightAdjustment))
      (if ge cw (lit 0) then mul (correlationNorm o b p) cw
       else mul (sub (lit 1) (correlationNorm o b p)) (abs cw)) in
  {| base := base p; apr := apr p; aprStdDev := aprStdDev p; tvlTrend := tvlTrend p;
     volumeTrend := volumeTrend p; score := Some sc;
     correlation := Some (calculateTokenCorrelation (base p) (corrOpts o)) |}.

(** [.sort((a, b) => (b.score ?? 0) - (a.score ?? 0))], as a stable insertion
    sort: [x] goes before [y] when the comparator of [(y, x)] is positive.
    For a consistent comparator every stable sort gives this order; the
    properties below only use that the result is a permutation. *)
Definition score_cmp (a b : PoolWithAPR) : num :=
  sub (coalesce (score b) (lit 0)) (coalesce (score a) (lit 0)).

Fixpoint insert_by_score (x : PoolWithAPR) (l : list PoolWithAPR) : list PoolWithAPR :=
  match l with
  | [] => [x]
  | y :: r => if gt (score_cmp y x) (lit 0) then x :: y :: r else y :: insert_by_score x r
  end.

Definition sort_by_score (l : list PoolWithAPR) : list PoolWithAPR :=
  fold_left (fun acc x => insert_by_score x acc) l [].

(** [arr.slice(0, n)] for an integral [n]. *)
Definition slice0 {A} (l : list A) (n : Z) : list A :=
  if Z.leb 0 n then firstn (Z.to_nat n) l
  else firstn (Z.to_nat (Z.of_nat (length l) + n)) l.

(** [getBestPoolsWithScore] after the fetch: [pools] is what
    [getUniswapPoolsWithAPR] returned. *)
Definition getBestPoolsWithScore (o : BestPoolsOptions) (now : Q)
    (pools : list PoolWithAPR) : list PoolWithAPR :=
  match pools with
  | [] => []
  | _ =>
      let b := bounds_of o pools in
      let filtered := map (score_pool o b) (filter (pool_filter o now) pools) in
      slice0 (sort_by_score filtered) (topN o)
  end.

(** The composite score as the spec words it for a non-zero correlation
    weight: five weighted terms scaled by
    [(1 - |cw|) / (sum of the five weights + |cw|)], plus the correlation term
    [correlationNorm * cw] for [cw >= 0] and [(1 - correlationNorm) * |cw|]
    for [cw < 0]. *)
Definition spec_composite_score (o : BestPoolsOptions) (b : Bounds) (p : PoolWithAPR) : num :=
  let cw := correlationWeight o in
  let adj := div (sub (lit 1) (abs cw))
                 (add (add (add (add (add (aprWeight o) (tvlWeight o))
                   (volatilityWeight o)) (tvlTrendWeight o)) (volumeTrendWeight o)) (abs cw)) in
  let term n w := mul (mul n w) adj in
  add (sum [term (aprNorm b p) (aprWeight o); term (tvlNorm b p) (tvlWeight o);
            term (volNorm b p) (volatilityWeight o);
            term (tvlTrendNorm b p) (tvlTrendWeight o);
            term (volumeTrendNorm b p) (volumeTrendWeight o)])
      (if ge cw (lit 0) then mul (correlationNorm o b p) cw
       else mul (sub (lit 1) (correlationNorm o b p)) (abs cw)).

(** The correlation classification as the spec words it, first match wins. *)
Definition spec_correlation (s0 s1 m0 m1 : bool) (o : CorrelationOptions) : Q :=
  if s0 && s1 then (if preferStableCorrelation o then 1 else 95 # 100)
  else if xorb s0 s1 then (if preferStableBase o then 9 # 10 else 8 # 10)
  else if m0 || m1 then 6 # 10
  else (if avoidExoticPairs o then 1 # 10 else 3 # 10).

Definition is_stable (addr : string) : bool :=
  lookup_flag STABLE_TOKENS (toLowerCase addr).
Definition is_major (addr : string) : bool :=
  lookup_flag MAJOR_TOKENS (toLowerCase addr).

(** Equality of numbers up to the value of the rationals. *)
Definition num_eq (x y : num) : Prop :=
  match x, y with
  | Some a, Some b => a == b
  | None, None => True
  | _, _ => False
  end.

(** A number in [[0, 1]]. *)
Definition in01 (x : num) : Prop := exists q, x = Some q /\ 0 <= q /\ q <= 1.

(** Sample pools: a USDC/WETH pool (mixed-case addresses) and an exotic pair
    whose volume trend is [NaN]. *)
Definition pool_usdc_weth : Pool :=
  {| id := "0xpoolA"; token0 := "0xA0b86991c6218b36c1D19D4a2e9Eb0cE3606eB48";
     token1 := "0xC02aaA39b223FE8D0A0e5C4F27eAD9083C756Cc2"; feeTier := lit 500;
     totalValueLockedUSD := lit 2000000; poolDayData := [];
     createdAtTimestamp := None |}.

Definition pool_exotic : Pool :=
  {| id := "0xpoolB"; token0 := "0x1111"; token1 := "0x2222"; feeTier := lit 10000;
     totalValueLockedUSD := lit 500000; poolDayData := [];
     createdAtTimestamp := Some (lit 1700000000) |}.

Definition scored_input (p : Pool) (a s t v : num) : PoolWithAPR :=
  {| base := p; apr := Some a; aprStdDev := Some s; tvlTrend := Some t;
     volumeTrend := Some v; score := None; correlation := None |}.

Definition sample_pools : list PoolWithAPR :=
  [scored_input pool_usdc_weth (lit 25) (lit 4) (lit 3) (lit 10);
   scored_input pool_exotic (lit 60) (lit 20) (lit (-5)) NaN].

Definition sample_options (cw : Q) : BestPoolsOptions :=
  {| minTVL := lit 100000; minAPR := lit 0; topN := 10; maxPoolAgeDays := None;
     preferredFeeTiers := None; minTokenCorrelation := lit 0;
     maxTokenCorrelation := lit 1; correlationWeight := lit cw;
     corrOpts := {| preferStableCorrelation := false; preferStableBase := false;
                    avoidExoticPairs := false |};
     aprWeight := lit (4 # 10); tvlWeight := lit (2 # 10);
     volatilityWeight := lit (2 # 10); tvlTrendWeight := lit (1 # 10);
     volumeTrendWeight := lit (1 # 10) |}.

(** ** Position sizing (position-sizing.utils.ts), score-weighted mode *)

Inductive StrategyKey := low | medium | high.

Record SizingProfile := {
  maxPositionPercentage_default : Q;
  minPositionUSD_default : Q;
  targetPositions : nat;
  concentrationFactor : Q;
}.

Definition DEFAULT_POSITION_SIZING (k : StrategyKey) : SizingProfile :=
  match k with
  | low => {| maxPositionPercentage_default := 30; minPositionUSD_default := 500;
              targetPositions := 4; concentrationFactor := 7 # 10 |}
  | medium => {| maxPositionPercentage_default := 40; minPositionUSD_default := 250;
                 targetPositions := 3; concentrationFactor := 8 # 10 |}
  | high => {| maxPositionPercentage_default := 60; minPositionUSD_default := 100;
               targetPositions := 2; concentrationFactor := 9 # 10 |}
  end.

(** [strategy?.key || 'medium'] *)
Definition riskProfile (strategy : option StrategyKey) : StrategyKey :=
  match strategy with Some k => k | None => medium end.

(** [maxPositionPercentage ?? profileDefaults.maxPositionPercentage] *)
Definition maxPercent_of (maxPositionPercentage : option num) (prof : SizingProfile) : num :=
  match maxPositionPercentage with
  | Some m => m
  | None => lit (maxPositionPercentage_default prof)
  end.

(** The working record of the score-weighted branch. *)
Record Position := {
  poolId : string;
  pscore : num;
  weightedScore : num;
  percentage : num;
  targetValueUSD : num;
}.

Record PositionSize := {
  size_poolId : string;
  size_percentage : num;
  size_targetValueUSD : num;
}.

Definition set_percentage (x : Position) (v : num) : Position :=
  {| poolId := poolId x; pscore := pscore x; weightedScore := weightedScore x;
     percentage := v; targetValueUSD := targetValueUSD x |}.

Definition set_targetValueUSD (x : Position) (v : num) : Position :=
  {| poolId := poolId x; pscore := pscore x; weightedScore := weightedScore x;
     percentage := percentage x; targetValueUSD := v |}.

(** [1 + (concentrationFactor * (targetCount - index - 1) / (targetCount - 1))] *)
Definition concentrationMultiplier (cf : Q) (targetCount index : nat) : num :=
  add (lit 1)
      (div (mul (lit cf) (lit (inject_Z (Z.of_nat targetCount - Z.of_nat index - 1))))
           (lit (inject_Z (Z.of_nat targetCount - 1)))).

(** [poolsToUse.map((pool, index) => ...)] *)
Fixpoint weigh_positions (cf : Q) (targetCount index : nat) (ps : list PoolWithAPR)
    : list Position :=
  match ps with
  | [] => []
  | p :: r =>
      {| poolId := id (base p); pscore := coalesce (score p) (lit 0);
         weightedScore := mul (coalesce (score p) (lit 0))
                              (concentrationMultiplier cf targetCount index);
         percentage := lit 0; targetValueUSD := lit 0 |}
      :: weigh_positions cf targetCount (S index) r
  end.

(** Normalize percentages: [(weightedScore / totalWeightedScore) * 100]. *)
Definition normalize_percentages (ps : list Position) : list Position :=
  let totalWeightedScore := sum (map weightedScore ps) in
  map (fun x => set_percentage x (mul (div (weightedScore x) totalWeightedScore) (lit 100))) ps.

(** First pass: the [.map] that caps oversized positions while updating
    [remainingPercent] and [remainingPositions]. *)
Fixpoint first_pass (maxPercent : num) (ps : list Position) (remainingPercent : num)
    (remainingPositions : Z) : list Position * num * Z :=
  match ps with
  | [] => ([], remainingPercent, remainingPositions)
  | x :: r =>
      if gt (percentage x) maxPercent then
        let '(r', rp, rn) :=
          first_pass maxPercent r (sub remainingPercent maxPercent) (remainingPositions - 1) in
        (set_percentage x maxPercent :: r', rp, rn)
      else
        let '(r', rp, rn) :=
          first_pass maxPercent r (sub remainingPercent (percentage x)) remainingPositions in
        (x :: r', rp, rn)
  end.

(** Second pass: redistribute [remainingPercent] by weighted score among the
    positions below the cap. *)
Definition second_pass (maxPercent : num) (ps : list Position) (remainingPercent : num)
    (remainingPositions : Z) : list Position :=
  if gt remainingPercent (lit 0) && Z.ltb 0 remainingPositions then
    let uncappedPositions := filter (fun p => lt (percentage p) maxPercent) ps in
    let totalUncappedScore := sum (map weightedScore uncappedPositions) in
    map (fun x =>
           if lt (percentage x) maxPercent then
             set_percentage x
               (add (percentage x)
                    (mul remainingPercent (div (weightedScore x) totalUncappedScore)))
           else x) ps
  else ps.

Definition cap_and_redistribute (maxPercent : num) (ps : list Position) : list Position :=
  let '(ps1, remainingPercent, remainingPositions) :=
    first_pass maxPercent ps (lit 100) (Z.of_nat (length ps)) in
  second_pass maxPercent ps1 remainingPercent remainingPositions.

(** The positions of the score-weighted branch after normalization (before
    the cap): the selected pools are the first [targetCount] by score. *)
Definition initial_positions (pools : list PoolWithAPR) (strategy : option StrategyKey)
    : list Position :=
  let prof := DEFAULT_POSITION_SIZING (riskProfile strategy) in
  let targetCount := Nat.min (length pools) (targetPositions prof) in
  let poolsToUse := firstn targetCount (sort_by_score pools) in
  normalize_percentages (weigh_positions (concentrationFactor prof) targetCount 0 poolsToUse).

(** [totalScore] of the selected pools. *)
Definition total_selected_score (pools : list PoolWithAPR) (strategy : option StrategyKey) : num :=
  let prof := DEFAULT_POSITION_SIZING (riskProfile strategy) in
  let targetCount := Nat.min (length pools) (targetPositions prof) in
  sum (map (fun p => coalesce (score p) (lit 0)) (firstn targetCount (sort_by_score pools))).

(** [calculatePositionSizes] with [equalWeight = false] (the score-weighted
    mode).  The equal-weight mode is not modelled. *)
Definition calculatePositionSizes (pools : list PoolWithAPR) (totalInvestmentUSD : num)
    (maxPositionPercentage : option num) (minPositionUSD : num)
    (strategy : option StrategyKey) : list PositionSize :=
  match pools with
  | [] => []
  | _ =>
    if le totalInvestmentUSD (lit 0) then [] else
    let prof := DEFAULT_POSITION_SIZING (riskProfile strategy) in
    let maxPercent := maxPercent_of maxPositionPercentage prof in
    let minPositionValueUSD := max2 minPositionUSD (lit (minPositionUSD_default prof)) in
    let targetCount := Nat.min (length pools) (targetPositions prof) in
    let poolsToUse := firstn targetCount (sort_by_score pools) in
    let totalScore := total_selected_score pools strategy in
    if le totalScore (lit 0) then
      let percentPerPosition :=
        min2 (div (lit 100) (lit (inject_Z (Z.of_nat (length poolsToUse))))) maxPercent in
      map (fun p => {| size_poolId := id (base p); size_percentage := percentPerPosition;
                       size_targetValueUSD :=
                         div (mul totalInvestmentUSD percentPerPosition) (lit 100) |})
          poolsToUse
    else
      let positions := cap_and_redistribute maxPercent (initial_positions pools strategy) in
      let positions :=
        map (fun x => set_targetValueUSD x
                        (div (mul totalInvestmentUSD (percentage x)) (lit 100))) positions in
      map (fun x => {| size_poolId := poolId x; size_percentage := percentage x;
                       size_targetValueUSD := targetValueUSD x |})
          (filter (fun x => ge (targetValueUSD x) minPositionValueUSD) positions)
  end.

(** The capped excess as the spec words it: the sum of [p - max] over the
    positions whose share [p] exceeds [max]. *)
Definition getq (x : num) : Q := match x with Some q => q | None => 0 end.

Fixpoint qsum (l : list Q) : Q := match l with [] => 0 | x :: r => x + qsum r end.

Definition spec_excess (M : Q) (ps : list Position) : Q :=
  qsum (map (fun x => let p := getq (percentage x) in if qltb M p then p - M else 0) ps).

(** Three equally scored pools. *)
Definition sized_pool (name : string) (sc : Q) : PoolWithAPR :=
  {| base := {| id := name; token0 := ""; token1 := ""; feeTier := lit 3000;
                totalValueLockedUSD := lit 1000000; poolDayData := [];
                createdAtTimestamp := None |};
     apr := Some (lit 20); aprStdDev := Some (lit 5); tvlTrend := None;
     volumeTrend := None; score := Some (lit sc); correlation := Some (lit (8 # 10)) |}.

Definition three_pools : list PoolWithAPR :=
  [sized_pool "0xp1" 1; sized_pool "0xp2" 1; sized_pool "0xp3" 1].

(** A dominant pool and two small ones. *)
Definition dominant_pools : list PoolWithAPR :=
  [sized_pool "0xp1" 1; sized_pool "0xp2" (1 # 5); sized_pool "0xp3" (1 # 10)].

(** One step of the first pass on a single position. *)
Definition cap1 (maxPercent : num) (x : Position) : Position :=
  if gt (percentage x) maxPercent then set_percentage x maxPercent else x.

(** One step of the second pass, for [remainingPercent = r] and
    [totalUncappedScore = W]. *)
Definition redist1 (M r W : Q) (y : Position) : Position :=
  if lt (percentage y) (lit M) then
    set_percentage y (add (percentage y) (mul (Some r) (div (weightedScore y) (Some W))))
  else y.

(** ** Rebalance recommendations ([pool-cache.service.ts]) *)

Record PriceRange := {
  lowerPrice : num;
  upperPrice : num;
}.

(** [calculateOptimalPriceRange]: the [widthMultipliers] table is indexed by
    the risk profile. *)
Definition widthMultiplier (k : StrategyKey) : Q :=
  match k with low => 4 | medium => 5 # 2 | high => 3 # 2 end.

Definition calculateOptimalPriceRange (pool : PoolWithAPR) (currentPrice : num)
    (strategy : option StrategyKey) : PriceRange :=
  let riskProfile := riskProfile strategy in
  let volatility :=
    match aprStdDev pool with
    | Some v => if truthy v then div v (lit 100) else lit (5 # 100)
    | None => lit (5 # 100)
    end in
  let rangeWidth := mul volatility (lit (widthMultiplier riskProfile)) in
  {| lowerPrice := mul currentPrice (sub (lit 1) rangeWidth);
     upperPrice := mul currentPrice (add (lit 1) rangeWidth) |}.

(** [needsRangeAdjustment].  A division by zero is [NaN] in this model
    where JavaScript gives an infinity; the recommendations below are
    therefore stated for an arbitrary range check. *)
Definition needsRangeAdjustment (currentPriceRange optimalPriceRange : PriceRange)
    (currentPrice minThresholdPercent : num) : bool :=
  let currentLower := lowerPrice currentPriceRange in
  let currentUpper := upperPrice currentPriceRange in
  let currentWidth := sub currentUpper currentLower in
  let optimalLower := lowerPrice optimalPriceRange in
  let optimalUpper := upperPrice optimalPriceRange in
  let optimalWidth := sub optimalUpper optimalLower in
  let lowerDiffPercent := abs (mul (div (sub optimalLower currentLower) currentLower) (lit 100)) in
  let upperDiffPercent := abs (mul (div (sub optimalUpper currentUpper) currentUpper) (lit 100)) in
  let widthDiffPercent := abs (mul (div (sub optimalWidth currentWidth) currentWidth) (lit 100)) in
  let priceProximityToLower := div (sub currentPrice currentLower) currentWidth in
  let priceProximityToUpper := div (sub currentUpper currentPrice) currentWidth in
  let isNearBoundary := lt priceProximityToLower (lit (1 # 5)) || lt priceProximityToUpper (lit (1 # 5)) in
  gt lowerDiffPercent minThresholdPercent || gt upperDiffPercent minThresholdPercent ||
  gt widthDiffPercent minThresholdPercent || isNearBoundary.

Inductive RebalanceActionType :=
  EXIT_POSITION | DECREASE_SIZE | INCREASE_SIZE | ADJUST_RANGE | MAINTAIN | ENTER_POSITION.

Definition RebalanceActionType_eqb (a b : RebalanceActionType) : bool :=
  match a, b with
  | EXIT_POSITION, EXIT_POSITION | DECREASE_SIZE, DECREASE_SIZE
  | INCREASE_SIZE, INCREASE_SIZE | ADJUST_RANGE, ADJUST_RANGE
  | MAINTAIN, MAINTAIN | ENTER_POSITION, ENTER_POSITION => true
  | _, _ => false
  end.

(** A recommended action; the display fields (token symbols, fee tier, price
    ranges and the reason texts) are left out. *)
Record RebalanceAction := {
  actionType : RebalanceActionType;
  act_poolId : string;
  currentSize : num;
  targetSize : num;
  sizeChangePercent : num;
  reasonCodes : list string;
  priority : num;
}.

(** An entry of [currentPositions] ([entryDate] is unused). *)
Record HeldPosition := {
  hp_poolId : string;
  size : num;
  priceRange : option PriceRange;
}.

(** [PositionRebalanceOptions]; [None] is an omitted field. *)
Record PositionRebalanceOptions := {
  strategy : option StrategyKey;
  currentPositions : list HeldPosition;
  availableLiquidity : option num;
  minActionThreshold : option num;
  maxPositions : option num;
}.

(** The [correlationThresholds] table. *)
Definition correlationThreshold (k : StrategyKey) : Q :=
  match k with low => 7 # 10 | medium => 4 # 10 | high => 0 end.

(** [poolsMap.get(key)] after [currentPools.forEach(pool => poolsMap.set(pool.id, pool))]:
    the last pool with that id. *)
Definition pools_get (currentPools : list PoolWithAPR) (key : string) : option PoolWithAPR :=
  fold_left (fun m pool => if String.eqb (id (base pool)) key then Some pool else m)
            currentPools None.

Section Rebalance.

(** The range check used for held positions with a price range. *)
Variable rangeCheck : PriceRange -> PriceRange -> num -> num -> bool.

(** The body of the [for (const position of currentPositions)] loop: the
    action it pushes, or [None] on [continue] without a push. *)
Definition analyze_position (currentPools : list PoolWithAPR) (strategy : option StrategyKey)
    (minActionThreshold : num) (position : HeldPosition) : option RebalanceAction :=
  let riskProfile := riskProfile strategy in
  match pools_get currentPools (hp_poolId position) with
  | None =>
      Some {| actionType := EXIT_POSITION; act_poolId := hp_poolId position;
              currentSize := size position; targetSize := lit 0;
              sizeChangePercent := lit (-100);
              reasonCodes := ["pool_tvl_decline"%string]; priority := lit 9 |}
  | Some pool =>
      let currentPrice := lit 1 in
      let aprChangePercent := lit 0 in
      let optimalPriceRange := calculateOptimalPriceRange pool currentPrice strategy in
      let priority := lit 1 in
      let '(rangeAdjustmentNeeded, reasonCodes, priority) :=
        match priceRange position with
        | Some r =>
            if rangeCheck r optimalPriceRange currentPrice minActionThreshold
            then (true, ["range_inefficiency"%string], max2 priority (lit 7))
            else (false, [], priority)
        | None => (false, [], priority)
        end in
      let '(reasonCodes, priority) :=
        if gt (abs aprChangePercent) minActionThreshold then
          if lt aprChangePercent (lit 0)
          then (reasonCodes ++ ["apr_decline"%string], max2 priority (lit 6))
          else (reasonCodes ++ ["apr_increase"%string], max2 priority (lit 4))
        else (reasonCodes, priority) in
      let sizeAdjustmentPercent := lit 0 in
      let '(reasonCodes, sizeAdjustmentPercent, priority) :=
        match correlation pool with
        | Some c =>
            if lt c (lit (correlationThreshold riskProfile))
            then (reasonCodes ++ ["correlation_change"%string],
                  sub sizeAdjustmentPercent (lit 50), max2 priority (lit 8))
            else (reasonCodes, sizeAdjustmentPercent, priority)
        | None => (reasonCodes, sizeAdjustmentPercent, priority)
        end in
      let '(reasonCodes, sizeAdjustmentPercent, priority) :=
        match apr pool with
        | Some a =>
            if lt a (lit 5)
            then (reasonCodes ++ ["apr_decline"%string],
                  sub sizeAdjustmentPercent (lit 100), max2 priority (lit 9))
            else (reasonCodes, sizeAdjustmentPercent, priority)
        | None => (reasonCodes, sizeAdjustmentPercent, priority)
        end in
      let actionType :=
        if le sizeAdjustmentPercent (lit (-100)) then EXIT_POSITION
        else if lt sizeAdjustmentPercent (lit 0) then DECREASE_SIZE
        else if gt sizeAdjustmentPercent (lit 0) then INCREASE_SIZE
        else if rangeAdjustmentNeeded then ADJUST_RANGE
        else MAINTAIN in
      if RebalanceActionType_eqb actionType MAINTAIN then None
      else
        let targetSize :=
          max2 (lit 0) (mul (size position) (add (lit 1) (div sizeAdjustmentPercent (lit 100)))) in
        Some {| actionType := actionType; act_poolId := hp_poolId position;
                currentSize := size position; targetSize := targetSize;
                sizeChangePercent := sizeAdjustmentPercent;
                reasonCodes := reasonCodes; priority := priority |}
  end.

End Rebalance.

(** The body of the new-opportunity loop for one candidate. *)
Definition enter_action (strategy : option StrategyKey) (avgNewPositionSize : num)
    (pool : PoolWithAPR) : list RebalanceAction :=
  let riskProfile := riskProfile strategy in
  let entry :=
    [{| actionType := ENTER_POSITION; act_poolId := id (base pool); currentSize := lit 0;
        targetSize := avgNewPositionSize; sizeChangePercent := lit 100;
        reasonCodes := ["new_opportunity"%string]; priority := lit 5 |}] in
  match apr pool with
  | None => []
  | Some a =>
      if lt a (lit 5) then []
      else
        match correlation pool with
        | Some c => if lt c (lit (correlationThreshold riskProfile)) then [] else entry
        | None => entry
        end
  end.

(** [for (let i = 0; i < bound; i++)] over [newPoolCandidates[i]]; [bound]
    never exceeds the number of candidates. *)
Fixpoint enter_loop (strategy : option StrategyKey) (avgNewPositionSize bound : num)
    (i : nat) (cands : list PoolWithAPR) : list RebalanceAction :=
  match cands with
  | [] => []
  | pool :: r =>
      if lt (lit (inject_Z (Z.of_nat i))) bound
      then enter_action strategy avgNewPositionSize pool ++
           enter_loop strategy avgNewPositionSize bound (S i) r
      else []
  end.

(** [actions.sort((a, b) => b.priority - a.priority)], a stable sort. *)
Definition priority_cmp (a b : RebalanceAction) : num := sub (priority b) (priority a).

Fixpoint insert_by_priority (x : RebalanceAction) (l : list RebalanceAction)
    : list RebalanceAction :=
  match l with
  | [] => [x]
  | y :: r => if gt (priority_cmp y x) (lit 0) then x :: y :: r else y :: insert_by_priority x r
  end.

Definition sort_by_priority (l : list RebalanceAction) : list RebalanceAction :=
  fold_left (fun acc x => insert_by_priority x acc) l [].

Definition generateRebalanceRecommendations
    (rangeCheck : PriceRange -> PriceRange -> num -> num -> bool)
    (currentPools : list PoolWithAPR) (options : PositionRebalanceOptions)
    : list RebalanceAction :=
  let strategy := strategy options in
  let currentPositions := currentPositions options in
  let availableLiquidity := match availableLiquidity options with Some v => v | None => lit 0 end in
  let minActionThreshold := match minActionThreshold options with Some v => v | None => lit 10 end in
  let npos := lit (inject_Z (Z.of_nat (length currentPositions))) in
  let maxPositions := match maxPositions options with Some v => v | None => npos end in
  let step1 :=
    flat_map (fun position =>
                match analyze_position rangeCheck currentPools strategy minActionThreshold position with
                | Some a => [a]
                | None => []
                end) currentPositions in
  let step2 :=
    if gt availableLiquidity (lit 0) && lt npos maxPositions then
      let existingPoolIds := map hp_poolId currentPositions in
      let newPoolCandidates :=
        sort_by_score
          (filter (fun pool => negb (existsb (String.eqb (id (base pool))) existingPoolIds))
                  currentPools) in
      let slotsAvailable := sub maxPositions npos in
      let safeAvailableLiquidity := mul availableLiquidity (lit (8 # 10)) in
      let bound := min2 slotsAvailable (lit (inject_Z (Z.of_nat (length newPoolCandidates)))) in
      let avgNewPositionSize := div safeAvailableLiquidity bound in
      enter_loop strategy avgNewPositionSize bound 0 newPoolCandidates
    else [] in
  sort_by_priority (step1 ++ step2).

(** A pool whose APR (3%) is below the 5% floor and whose token correlation
    (0.2) is below the medium threshold, a healthy pool, and two held
    positions in them. *)
Definition pool_low_apr : PoolWithAPR :=
  {| base := {| id := "0xlow"; token0 := "0xa"; token1 := "0xb"; feeTier := lit 3000;
                totalValueLockedUSD := lit 500000; poolDayData := [];
                createdAtTimestamp := None |};
     apr := Some (lit 3); aprStdDev := Some (lit 5); tvlTrend := None;
     volumeTrend := None; score := Some (lit (3 # 10)); correlation := Some (lit (2 # 10)) |}.

Definition pool_healthy : PoolWithAPR :=
  {| base := {| id := "0xok"; token0 := "0xc"; token1 := "0xd"; feeTier := lit 500;
                totalValueLockedUSD := lit 2000000; poolDayData := [];
                createdAtTimestamp := None |};
     apr := Some (lit 25); aprStdDev := Some (lit 4); tvlTrend := None;
     volumeTrend := None; score := Some (lit (7 # 10)); correlation := Some (lit (9 # 10)) |}.

Definition rebalance_options : PositionRebalanceOptions :=
  {| strategy := Some medium;
     currentPositions :=
       [{| hp_poolId := "0xok"; size := lit 5000;
           priceRange := Some {| lowerPrice := lit (9 # 10); upperPrice := lit (11 # 10) |} |};
        {| hp_poolId := "0xlow"; size := lit 3000;
           priceRange := Some {| lowerPrice := lit (95 # 100); upperPrice := lit (105 # 100) |} |}];
     availableLiquidity := Some (lit 1000); minActionThreshold := None;
     maxPositions := Some (lit 3) |}.

(** ** Pool cache refresh ([PoolCacheService.refreshStrategyPools]) *)

(** A cache entry; [timestamp] is the [Date] in milliseconds. *)
Record CacheEntry := {
  pools : list PoolWithAPR;
  averageApr : num;
  timestamp : Z;
}.

(** [cachedPools: Record<StrategyKey, ...>]. *)
Record CachedPools := {
  cache_low : CacheEntry;
  cache_medium : CacheEntry;
  cache_high : CacheEntry;
}.

Definition cache_get (c : CachedPools) (k : StrategyKey) : CacheEntry :=
  match k with low => cache_low c | medium => cache_medium c | high => cache_high c end.

(** [this.cachedPools[strategy] = entry]. *)
Definition cache_set (c : CachedPools) (k : StrategyKey) (e : CacheEntry) : CachedPools :=
  match k with
  | low => {| cache_low := e; cache_medium := cache_medium c; cache_high := cache_high c |}
  | medium => {| cache_low := cache_low c; cache_medium := e; cache_high := cache_high c |}
  | high => {| cache_low := cache_low c; cache_medium := cache_medium c; cache_high := e |}
  end.

Definition StrategyKey_eqb (a b : StrategyKey) : bool :=
  match a, b with low, low | medium, medium | high, high => true | _, _ => false end.

(** The initial value of [cachedPools]. *)
Definition initial_cache : CachedPools :=
  let e := {| pools := []; averageApr := lit 0; timestamp := 0 |} in
  {| cache_low := e; cache_medium := e; cache_high := e |}.

(** How the [Promise.race] of a [getBestPoolsWithScore] query against the
    15-second timeout settles: fulfilled with the pools, or rejected (the
    query failed or the timeout fired first). *)
Inductive QueryResult :=
  | Fulfilled (result : list PoolWithAPR)
  | Rejected (message : string).

(** [let vXPools = []; try { vXPools = await Promise.race(...) } catch { }] *)
Definition settle (r : QueryResult) : list PoolWithAPR :=
  match r with Fulfilled l => l | Rejected _ => [] end.

(** [refreshStrategyPools(strategy)] as a state transition of [cachedPools];
    [v3] and [v4] are the settled v3 and v4 queries and [now] is
    [new Date()]. *)
Definition refreshStrategyPools (cachedPools : CachedPools) (strategy : StrategyKey)
    (v3 v4 : QueryResult) (now : Z) : CachedPools :=
  let v3Pools := settle v3 in
  let v4Pools := settle v4 in
  let pools := v3Pools ++ v4Pools in
  let validAprs := flat_map (fun pool => match apr pool with Some a => [a] | None => [] end) pools in
  let averageApr :=
    if Nat.ltb 0 (length validAprs)
    then div (sum validAprs) (lit (inject_Z (Z.of_nat (length validAprs))))
    else lit 0 in
  cache_set cachedPools strategy {| pools := pools; averageApr := averageApr; timestamp := now |}.

(** A cache whose medium tier holds one pool. *)
Definition warm_cache : CachedPools :=
  cache_set initial_cache medium
    {| pools := [pool_healthy]; averageApr := lit 25; timestamp := 1000 |}.

(** ** Impermanent loss estimate ([estimateImpermanentLoss]) *)

Module ImpermanentLoss.
Import Stdlib.Reals.Reals.
Local Open Scope R_scope.

Definition estimateImpermanentLoss (initialPrice priceChangePercent : R) : R :=
  let priceRatio := 1 + priceChangePercent / 100 in
  let sqrtPriceRatio := sqrt priceRatio in
  let impermanentLoss := 2 * sqrtPriceRatio / (1 + priceRatio) - 1 in
  impermanentLoss * 100.

End ImpermanentLoss.


(** ** Trends and regression slopes ([getUniswapPoolsWithAPR]) *)

(** [regressionSlope(xs, ys)], the least-squares slope: [null] for
    mismatched lengths, fewer than two points or a zero denominator. *)
Definition regressionSlope (xs ys : list num) : option num :=
  if negb (Nat.eqb (length xs) (length ys)) || Nat.ltb (length xs) 2 then None else
  let n := lit (Z.of_nat (length xs) # 1) in
  let xMean := div (sum xs) n in
  let yMean := div (sum ys) n in
  let num := sum (map (fun xy => mul (sub (fst xy) xMean) (sub (snd xy) yMean)) (combine xs ys)) in
  let den := sum (map (fun x => mul (sub x xMean) (sub x xMean)) xs) in
  if strict_eq den (lit 0) then None else Some (div num den).

(** [validDays.map((_, i) => i)] *)
Definition indices (n : nat) : list num := map (fun i => lit (Z.of_nat i # 1)) (seq 0 n).

(** [tvlTrend]: the percent change of [tvlUSD] from the oldest valid day
    (the last) to the newest (the first). *)
Definition pool_tvlTrend (p : Pool) : option num :=
  if has_history p then
    match filter isValidDay (poolDayData p) with
    | [] => None
    | (d0 :: _) as vd =>
        if Nat.ltb 1 (length vd) then
          let tvlStart := tvlUSD (last vd d0) in
          let tvlEnd := tvlUSD d0 in
          if gt tvlStart (lit 0)
          then Some (mul (div (sub tvlEnd tvlStart) tvlStart) (lit 100))
          else None
        else None
    end
  else None.

(** [volumeTrend], the same on [volumeUSD]. *)
Definition pool_volumeTrend (p : Pool) : option num :=
  if has_history p then
    match filter isValidDay (poolDayData p) with
    | [] => None
    | (d0 :: _) as vd =>
        if Nat.ltb 1 (length vd) then
          let volStart := volumeUSD (last vd d0) in
          let volEnd := volumeUSD d0 in
          if gt volStart (lit 0)
          then Some (mul (div (sub volEnd volStart) volStart) (lit 100))
          else None
        else None
    end
  else None.

(** [tvlSlope] and [volumeSlope]. *)
Definition pool_tvlSlope (p : Pool) : option num :=
  if has_history p then
    let vd := filter isValidDay (poolDayData p) in
    if Nat.ltb 1 (length vd)
    then regressionSlope (indices (length vd)) (map tvlUSD vd)
    else None
  else None.

Definition pool_volumeSlope (p : Pool) : option num :=
  if has_history p then
    let vd := filter isValidDay (poolDayData p) in
    if Nat.ltb 1 (length vd)
    then regressionSlope (indices (length vd)) (map volumeUSD vd)
    else None
  else None.

(** ** Equal-weight position sizing ([calculatePositionSizes]) *)





(** ** Pool cache getters ([PoolCacheService]) *)

(** [6 * 60 * 60 * 1000] milliseconds. *)
Definition sixHours : Z := 6 * 60 * 60 * 1000.

(** [getCachedPoolsByStrategy(strategy)]: the returned pools and the cache
    afterwards.  [now] is [Date.now()] at the freshness check; [v3], [v4] and
    [refreshedAt] are the settled queries and the [new Date()] of the refresh
    it may run.  [refreshStrategyPools] catches every error, so the [catch]
    branch is not reached. *)
Definition getCachedPoolsByStrategy (cachedPools : CachedPools) (strategy : StrategyKey)
    (now : Z) (v3 v4 : QueryResult) (refreshedAt : Z) : list PoolWithAPR * CachedPools :=
  let cacheEntry := cache_get cachedPools strategy in
  let sixHoursAgo := (now - sixHours)%Z in
  if Nat.ltb 0 (length (pools cacheEntry)) && Z.ltb sixHoursAgo (timestamp cacheEntry)
  then (pools cacheEntry, cachedPools)
  else
    let cachedPools' := refreshStrategyPools cachedPools strategy v3 v4 refreshedAt in
    (pools (cache_get cachedPools' strategy), cachedPools').

(** [getAverageAprByStrategy(strategy)]. *)
Definition getAverageAprByStrategy (cachedPools : CachedPools) (strategy : StrategyKey)
    (now : Z) (v3 v4 : QueryResult) (refreshedAt : Z) : num * CachedPools :=
  let cacheEntry := cache_get cachedPools strategy in
  let sixHoursAgo := (now - sixHours)%Z in
  if Z.ltb sixHoursAgo (timestamp cacheEntry)
  then (averageApr cacheEntry, cachedPools)
  else
    let cachedPools' := refreshStrategyPools cachedPools strategy v3 v4 refreshedAt in
    (averageApr (cache_get cachedPools' strategy), cachedPools').







(** ** Rebalancing helpers *)

(** [getPricePositionInRange(currentPrice, priceRange)] *)
Definition getPricePositionInRange (currentPrice : num) (priceRange : PriceRange) : Z :=
  if lt currentPrice (lowerPrice priceRange) then -1
  else if gt currentPrice (upperPrice priceRange) then 1
  else 0.

(** A pool with its two tokens exchanged. *)
Definition swap_tokens (p : Pool) : Pool :=
  {| id := id p; token0 := token1 p; token1 := token0 p; feeTier := feeTier p;
     totalValueLockedUSD := totalValueLockedUSD p; poolDayData := poolDayData p;
     createdAtTimestamp := createdAtTimestamp p |}.

(** ** Kelly sizing and fee/IL trade-off, over the reals *)

Module RealModels.
Import Stdlib.Reals.Reals Stdlib.Reals.Qreals.
Import ImpermanentLoss.
Local Open Scope R_scope.

(** [calculateKellyPositionSize(pool, totalCapital)]: [!pool.apr] and
    [!pool.aprStdDev] hold for [null], [NaN] and [0].  [Math.PI] is [PI]. *)
Definition calculateKellyPositionSize (pool : PoolWithAPR) (totalCapital : R) : R :=
  match apr pool, aprStdDev pool with
  | Some (Some qa), Some (Some qs) =>
      if negb (Qeq_bool qa 0) && negb (Qeq_bool qs 0) then
        let edgeRatio := Q2R qa / 100 in
        let volatility := Q2R qs / 100 in
        let probProfit := 0.5 + edgeRatio / (volatility * sqrt (2 * PI)) in
        let winLossRatio := edgeRatio / volatility in
        let kellyPercentage :=
          Rmin 100 (Rmax 0 ((probProfit - (1 - probProfit) / winLossRatio) * 100)) in
        kellyPercentage / 2
      else 0
  | _, _ => 0
  end.

(** [calculateFeeVsILTradeoff(pool, priceVolatility, daysHeld)]; the result
    is [None] where JavaScript computes [NaN] (a [NaN] APR). *)
Definition calculateFeeVsILTradeoff (pool : PoolWithAPR) (priceVolatility daysHeld : R)
    : option R :=
  match apr pool with
  | None => Some 0
  | Some None => None
  | Some (Some qa) =>
      let feesReturnPercent := (Q2R qa / 365) * daysHeld in
      let expectedILPercent := estimateImpermanentLoss 1 priceVolatility in
      Some (feesReturnPercent + expectedILPercent)
  end.

End RealModels.

(** [a] comes before [b] in a list sorted by non-increasing numeric [key]. *)
Definition desc_by {A} (key : A -> num) (a b : A) : Prop :=
  exists qa qb, key a = Some qa /\ key b = Some qb /\ qb <= qa.

(** A third pool, not held by the sample positions. *)
Definition pool_new : PoolWithAPR :=
  {| base := {| id := "0xnew"; token0 := "0xe"; token1 := "0xf"; feeTier := lit 500;
                totalValueLockedUSD := lit 1000000; poolDayData := [];
                createdAtTimestamp := None |};
     apr := Some (lit 30); aprStdDev := Some (lit 6); tvlTrend := None;
     volumeTrend := None; score := Some (lit (8 # 10)); correlation := Some (lit (9 # 10)) |}.

(* ===== THEOREMS ===== *)

(** ** Metrics engine *)

Lemma qltb_true (a b : Q) : qltb a b = true <-> a < b.
Proof.
  unfold qltb. rewrite negb_true_iff. split; intro H.
  - apply Qnot_le_lt. intro H'. apply Qle_bool_iff in H'. congruence.
  - destruct (Qle_bool b a) eqn:E; [|reflexivity].
    apply Qle_bool_iff in E. exfalso. apply (Qlt_not_le a b); assumption.
Qed.

Lemma Qeq_bool_pos (t : Q) : 0 < t -> Qeq_bool t 0 = false.
Proof.
  intro H. destruct (Qeq_bool t 0) eqn:E; [|reflexivity].
  apply Qeq_bool_iff in E. rewrite E in H. discriminate.
Qed.

Lemma isValidDay_spec (d : DailySnapshot) :
  isValidDay d = true ->
  exists f t, feesUSD d = Some f /\ tvlUSD d = Some t /\ 0 < t.
Proof.
  unfold isValidDay. destruct (feesUSD d) as [f|]; destruct (tvlUSD d) as [t|];
    simpl; try discriminate.
  intro H. exists f, t. repeat split. apply qltb_true. exact H.
Qed.

Lemma spec_valid_isValidDay (d : DailySnapshot) :
  spec_valid d -> isValidDay d = true.
Proof.
  intros (f & t & Ef & _ & Et & Ht). unfold isValidDay.
  rewrite Ef, Et. simpl. apply qltb_true. exact Ht.
Qed.

Lemma sum_day_apr (ds : list DailySnapshot) (a : Q) :
  forallb isValidDay ds = true ->
  exists s, fold_left add (map day_apr ds) (Some a) = Some s /\
            s == a + spec_apr_sum ds.
Proof.
  revert a. induction ds as [|d r IH]; intros a H.
  - exists a. split; [reflexivity | simpl; ring].
  - cbn [forallb] in H. apply andb_prop in H as [Hd Hr].
    destruct (isValidDay_spec d Hd) as (f & t & Ef & Et & Ht).
    assert (Hd' : day_apr d = Some (f / t * 365 * 100)).
    { unfold day_apr. rewrite Ef, Et. unfold div. rewrite (Qeq_bool_pos t Ht).
      reflexivity. }
    cbn [map fold_left spec_apr_sum]. rewrite Hd', Ef, Et.
    destruct (IH (a + f / t * 365 * 100) Hr) as (s & Hs & Hq).
    exists s. split; [exact Hs|]. rewrite Hq. ring.
Qed.

Lemma length_pos_nonzero (n : nat) :
  Nat.ltb 0 n = true -> Qeq_bool (Z.of_nat n # 1) 0 = false.
Proof.
  intro H. apply Nat.ltb_lt in H. apply Qeq_bool_pos.
  unfold Qlt. simpl. lia.
Qed.

(** C2 as stated fails: a snapshot with [feesUSD = 10] and [tvlUSD = 1000] in a
    pool whose current TVL is [0] is not counted as a valid day. *)
Lemma C2_counterexample :
  ~ (forall p d, In d (poolDayData p) -> (In d (validDays p) <-> spec_valid d)).
Proof.
  intro H.
  assert (Hs : spec_valid day_10_1000).
  { exists 10, 1000. repeat split; discriminate. }
  apply (H pool_zero_tvl day_10_1000) in Hs; [|left; reflexivity].
  exact Hs.
Qed.

(** C2 (amended).  The valid-day filter only runs when the pool's current TVL
    parses to a number [> 0]; otherwise no snapshot is counted.  When it runs,
    a snapshot whose [feesUSD] parses to a non-negative number and whose
    [tvlUSD] parses to a number [> 0] is counted, and a counted snapshot always
    has a [feesUSD] that parses and a [tvlUSD] that parses to a number [> 0]. *)
Theorem C2_valid_days_amended (p : Pool) (d : DailySnapshot) :
  (gt (totalValueLockedUSD p) (lit 0) = false -> validDays p = []) /\
  (gt (totalValueLockedUSD p) (lit 0) = true ->
     In d (poolDayData p) -> spec_valid d -> In d (validDays p)) /\
  (In d (validDays p) ->
     In d (poolDayData p) /\ isNaN (feesUSD d) = false /\
     exists t, tvlUSD d = Some t /\ 0 < t).
Proof.
  unfold validDays, has_history. split; [|split].
  - intro H. rewrite H, andb_false_r. reflexivity.
  - intros Ht Hin Hv. rewrite Ht.
    destruct (poolDayData p) as [|d0 r] eqn:E; [destruct Hin|].
    cbn [length Nat.ltb andb]. apply filter_In. split; [exact Hin|].
    apply spec_valid_isValidDay. exact Hv.
  - destruct (_ && _); [|intros []].
    intro Hin. apply filter_In in Hin as [Hin Hv]. split; [exact Hin|].
    destruct (isValidDay_spec d Hv) as (f & t & Ef & Et & Ht).
    rewrite Ef. split; [reflexivity|]. exists t. split; assumption.
Qed.

Lemma C2_valid_days_amended_witness :
  gt (totalValueLockedUSD pool_tvl_1000) (lit 0) = true /\
  In day_10_1000 (validDays pool_tvl_1000).
Proof.
  split; [reflexivity|].
  apply (proj1 (proj2 (C2_valid_days_amended pool_tvl_1000 day_10_1000)));
    [reflexivity | left; reflexivity |].
  exists 10, 1000. repeat split; discriminate.
Defined.

(** C3 as stated fails: the pool with current TVL [0] has a valid snapshot, yet
    its window-average APR is [null]. *)
Lemma C3_counterexample :
  ~ (forall p, averageApr7d p = None <-> filter isValidDay (poolDayData p) = []).
Proof.
  intro H. specialize (H pool_zero_tvl).
  assert (E : averageApr7d pool_zero_tvl = None) by reflexivity.
  apply H in E. discriminate E.
Qed.

(** C3 (amended).  When the pool's current TVL is not a number [> 0], the
    window-average APR is [null].  Otherwise it is [null] exactly when no
    snapshot passes the valid-day filter, and else it is the arithmetic mean of
    [(feesUSD/tvlUSD)*365*100] over the snapshots that pass it. *)
Theorem C3_average_apr_amended (p : Pool) :
  (gt (totalValueLockedUSD p) (lit 0) = false -> averageApr7d p = None) /\
  (gt (totalValueLockedUSD p) (lit 0) = true ->
     (averageApr7d p = None <-> filter isValidDay (poolDayData p) = []) /\
     (forall v, averageApr7d p = Some v ->
        exists q, v = Some q /\
                  q == spec_mean_apr (filter isValidDay (poolDayData p)))).
Proof.
  unfold averageApr7d, has_history. split.
  - intro H. rewrite H, andb_false_r. reflexivity.
  - intro Ht. rewrite Ht, andb_true_r.
    destruct (poolDayData p) as [|d0 r] eqn:E.
    + simpl. split; [split; reflexivity | discriminate].
    + simpl Nat.ltb at 1. cbv iota beta.
      set (vd := filter isValidDay (d0 :: r)).
      destruct (Nat.ltb 0 (length vd)) eqn:L.
      * split.
        -- split; [discriminate|]. intro Hv. rewrite Hv in L. discriminate.
        -- intros v Hv. injection Hv as <-.
           assert (Hall : forallb isValidDay vd = true).
           { apply forallb_forall. intros x Hx.
             apply filter_In in Hx. apply Hx. }
           destruct (sum_day_apr vd 0 Hall) as (s & Hs & Hq).
           unfold mean, sum, lit. rewrite length_map, Hs. cbn [div].
           rewrite (length_pos_nonzero _ L).
           exists (s / (Z.of_nat (length vd) # 1)). split; [reflexivity|].
           unfold spec_mean_apr. rewrite Hq. field.
           intro Z0. apply Qeq_bool_iff in Z0.
           rewrite (length_pos_nonzero _ L) in Z0. discriminate.
      * split; [|discriminate]. split; [|reflexivity]. intros _.
        destruct vd; [reflexivity | discriminate].
Qed.

Lemma C3_average_apr_amended_witness :
  gt (totalValueLockedUSD pool_tvl_1000) (lit 0) = true /\
  match averageApr7d pool_tvl_1000 with Some (Some q) => q == 365 | _ => False end /\
  (filter isValidDay (poolDayData pool_tvl_1000) = [] -> False).
Proof.
  split; [reflexivity|]. split; [vm_compute; reflexivity|].
  intro H.
  apply (proj2 (proj1 (proj2 (C3_average_apr_amended pool_tvl_1000) eq_refl))) in H.
  vm_compute in H. discriminate H.
Defined.

(** ** Correlation estimator *)

(** C5.  [calculateTokenCorrelation] returns the value of the first matching
    rule (both tokens stable: 0.95, or 1.0 with [preferStableCorrelation];
    exactly one stable: 0.8, or 0.9 with [preferStableBase]; at least one
    major: 0.6; otherwise 0.3, or 0.1 with [avoidExoticPairs]), and the result
    lies in [[0, 1]]. *)
Theorem C5_correlation_rules (p : Pool) (o : CorrelationOptions) :
  calculateTokenCorrelation p o =
    lit (spec_correlation (is_stable (token0 p)) (is_stable (token1 p))
                          (is_major (token0 p)) (is_major (token1 p)) o) /\
  in01 (calculateTokenCorrelation p o).
Proof.
  unfold calculateTokenCorrelation, spec_correlation, is_stable, is_major.
  destruct (lookup_flag STABLE_TOKENS (toLowerCase (token0 p)));
  destruct (lookup_flag STABLE_TOKENS (toLowerCase (token1 p)));
  destruct (lookup_flag MAJOR_TOKENS (toLowerCase (token0 p)));
  destruct (lookup_flag MAJOR_TOKENS (toLowerCase (token1 p)));
  destruct (preferStableCorrelation o); destruct (preferStableBase o);
  destruct (avoidExoticPairs o); simpl;
  (split; [reflexivity | eexists; split; [reflexivity | split; discriminate]]).
Qed.

(** ** Scoring pipeline: structural lemmas *)

Lemma in_slice0 {A} (l : list A) (n : Z) (x : A) : In x (slice0 l n) -> In x l.
Proof.
  unfold slice0. intro H.
  destruct (Z.leb 0 n);
    [rewrite <- (firstn_skipn (Z.to_nat n) l) | rewrite <- (firstn_skipn (Z.to_nat (Z.of_nat (length l) + n)) l)];
    apply in_or_app; left; exact H.
Qed.

Lemma insert_by_score_perm (x : PoolWithAPR) (l : list PoolWithAPR) :
  Permutation (insert_by_score x l) (x :: l).
Proof.
  induction l as [|y r IH]; cbn [insert_by_score]; [reflexivity|].
  destruct (gt (score_cmp y x) (lit 0)); [reflexivity|].
  rewrite IH. apply perm_swap.
Qed.

Lemma sort_by_score_perm (l : list PoolWithAPR) : Permutation (sort_by_score l) l.
Proof.
  unfold sort_by_score.
  assert (G : forall acc, Permutation (fold_left (fun acc x => insert_by_score x acc) l acc) (l ++ acc)).
  { induction l as [|x r IH]; intro acc; simpl; [reflexivity|].
    rewrite IH, insert_by_score_perm. apply Permutation_sym, Permutation_middle. }
  rewrite G, app_nil_r. reflexivity.
Qed.

Lemma in_getBestPoolsWithScore (o : BestPoolsOptions) (now : Q)
    (pools : list PoolWithAPR) (p : PoolWithAPR) :
  In p (getBestPoolsWithScore o now pools) ->
  exists q, In q pools /\ pool_filter o now q = true /\
            p = score_pool o (bounds_of o pools) q.
Proof.
  unfold getBestPoolsWithScore. destruct pools as [|p0 r] eqn:E; [intros []|].
  rewrite <- E. intro H. apply in_slice0 in H.
  apply (Permutation_in _ (sort_by_score_perm _)) in H.
  apply in_map_iff in H as (q & <- & Hq). apply filter_In in Hq as [Hin Hf].
  exists q. repeat split; assumption.
Qed.

Lemma length_slice0_mono {A B} (l1 : list A) (l2 : list B) (n : Z) :
  (length l1 <= length l2)%nat -> (length (slice0 l1 n) <= length (slice0 l2 n))%nat.
Proof.
  intro H. unfold slice0. destruct (Z.leb 0 n); rewrite !length_firstn; lia.
Qed.

Lemma length_sort_by_score (l : list PoolWithAPR) :
  length (sort_by_score l) = length l.
Proof. apply Permutation_length, sort_by_score_perm. Qed.

Lemma length_filter_mono {A} (f g : A -> bool) (l : list A) :
  (forall x, f x = true -> g x = true) ->
  (length (filter f l) <= length (filter g l))%nat.
Proof.
  intro H. induction l as [|x r IH]; simpl; [lia|].
  destruct (f x) eqn:Ef.
  - rewrite (H x Ef). simpl. lia.
  - destruct (g x); simpl; lia.
Qed.

(** ** Composite score *)

Lemma add_chain_sum (a b c d e f : num) :
  num_eq (add (add (add (add (add a b) c) d) e) f) (add (sum [a; b; c; d; e]) f).
Proof.
  unfold sum, lit. destruct a, b, c, d, e, f; simpl; try exact I. ring.
Qed.

(** C4.  With a non-zero correlation weight, every pool returned by
    [getBestPoolsWithScore] carries, as its score, the sum of its five
    normalized non-correlation terms each times its weight and times
    [(1 - |cw|) / (sum of the five weights + |cw|)], plus
    [correlationNorm * cw] when [cw >= 0] and [(1 - correlationNorm) * |cw|]
    when [cw < 0]; the normalizations are the min-max ones over all fetched
    pools. *)
Theorem C4_composite_score (o : BestPoolsOptions) (now : Q)
    (pools : list PoolWithAPR) (p : PoolWithAPR) (w : Q) :
  correlationWeight o = lit w -> ~ w == 0 ->
  In p (getBestPoolsWithScore o now pools) ->
  exists q v, In q pools /\ base p = base q /\ score p = Some v /\
              num_eq v (spec_composite_score o (bounds_of o pools) q).
Proof.
  intros Hw Hnz Hin.
  apply in_getBestPoolsWithScore in Hin as (q & Hq & _ & ->).
  set (b := bounds_of o pools).
  unfold score_pool, spec_composite_score. cbn [base score].
  rewrite Hw. change (strict_eq (lit w) (lit 0)) with (Qeq_bool w 0).
  destruct (Qeq_bool w 0) eqn:E; [apply Qeq_bool_iff in E; contradiction|].
  cbn [negb]. eexists q, _. split; [exact Hq|]. split; [reflexivity|].
  split; [reflexivity|]. apply add_chain_sum.
Qed.

Lemma C4_composite_score_witness :
  correlationWeight (sample_options (2 # 10)) = lit (2 # 10) /\ ~ (2 # 10) == 0 /\
  exists q v, In q sample_pools /\
    score (hd (scored_input pool_exotic NaN NaN NaN NaN)
              (getBestPoolsWithScore (sample_options (2 # 10)) 0 sample_pools)) = Some v /\
    num_eq v (spec_composite_score (sample_options (2 # 10))
               (bounds_of (sample_options (2 # 10)) sample_pools) q).
Proof.
  split; [reflexivity|]. split; [discriminate|].
  destruct (C4_composite_score (sample_options (2 # 10)) 0 sample_pools
              (hd (scored_input pool_exotic NaN NaN NaN NaN)
                  (getBestPoolsWithScore (sample_options (2 # 10)) 0 sample_pools))
              (2 # 10) eq_refl ltac:(discriminate) ltac:(vm_compute; left; reflexivity))
    as (q & v & Hq & _ & Hs & Hv).
  exists q, v. split; [exact Hq|]. split; assumption.
Defined.

(** ** Score bounds *)

Lemma fold_min2_none (r : list num) : fold_left min2 r None = None.
Proof. induction r as [|v r IH]; simpl; [reflexivity | exact IH]. Qed.

Lemma fold_max2_none (r : list num) : fold_left max2 r None = None.
Proof. induction r as [|v r IH]; simpl; [reflexivity | exact IH]. Qed.

Lemma fold_min2_spec (r : list num) (acc : num) :
  fold_left min2 r acc = None \/
  exists m, fold_left min2 r acc = Some m /\ (forall a, acc = Some a -> m <= a) /\
            (forall v, In v r -> exists a, v = Some a /\ m <= a).
Proof.
  revert acc. induction r as [|v r IH]; intro acc.
  - destruct acc as [a|]; [right | left; reflexivity].
    exists a. split; [reflexivity|]. split; [|intros v []].
    intros a' [= <-]. apply Qle_refl.
  - cbn [fold_left]. destruct acc as [a|]; [|left; apply fold_min2_none].
    destruct v as [c|]; [|left; apply fold_min2_none].
    destruct (IH (Some (Qmin a c))) as [H | (m & Hm & Hacc & Hr)]; [left; exact H|].
    right. exists m. split; [exact Hm|].
    specialize (Hacc _ eq_refl).
    split.
    + intros a' [= <-]. eapply Qle_trans; [exact Hacc | apply Q.le_min_l].
    + intros v [<- | Hv]; [|apply Hr, Hv].
      exists c. split; [reflexivity|]. eapply Qle_trans; [exact Hacc | apply Q.le_min_r].
Qed.

Lemma fold_max2_spec (r : list num) (acc : num) :
  fold_left max2 r acc = None \/
  exists m, fold_left max2 r acc = Some m /\ (forall a, acc = Some a -> a <= m) /\
            (forall v, In v r -> exists a, v = Some a /\ a <= m).
Proof.
  revert acc. induction r as [|v r IH]; intro acc.
  - destruct acc as [a|]; [right | left; reflexivity].
    exists a. split; [reflexivity|]. split; [|intros v []].
    intros a' [= <-]. apply Qle_refl.
  - cbn [fold_left]. destruct acc as [a|]; [|left; apply fold_max2_none].
    destruct v as [c|]; [|left; apply fold_max2_none].
    destruct (IH (Some (Qmax a c))) as [H | (m & Hm & Hacc & Hr)]; [left; exact H|].
    right. exists m. split; [exact Hm|].
    specialize (Hacc _ eq_refl).
    split.
    + intros a' [= <-]. eapply Qle_trans; [apply Q.le_max_l | exact Hacc].
    + intros v [<- | Hv]; [|apply Hr, Hv].
      exists c. split; [reflexivity|]. eapply Qle_trans; [apply Q.le_max_r | exact Hacc].
Qed.

Lemma lit_0_in01 : in01 (lit 0).
Proof. exists 0. split; [reflexivity|]. split; [apply Qle_refl | discriminate]. Qed.

(** A value of a non-empty array, min-max normalized over that array, lies in
    [[0, 1]]; when the array holds a [NaN] its bounds are [NaN] and the value
    normalizes to [0]. *)
Lemma normalize_in01 (v : num) (xs : list num) :
  In v xs -> in01 (normalize v (min_list xs) (max_list xs)).
Proof.
  intro Hin. destruct xs as [|x0 r]; [destruct Hin|].
  unfold min_list, max_list, normalize.
  destruct (fold_min2_spec r x0) as [Hn | (m & Hm & Hm0 & Hmr)];
    [rewrite Hn; destruct (fold_left max2 r x0); apply lit_0_in01|].
  destruct (fold_max2_spec r x0) as [Hx | (M & HM & HM0 & HMr)];
    [rewrite Hx, Hm; apply lit_0_in01|].
  rewrite Hm, HM.
  assert (Hv : exists a, v = Some a /\ m <= a /\ a <= M).
  { destruct Hin as [<- | Hin].
    - destruct x0 as [a|]; [|rewrite fold_min2_none in Hm; discriminate].
      exists a. split; [reflexivity|]. split; [apply Hm0 | apply HM0]; reflexivity.
    - destruct (Hmr v Hin) as (a & -> & Ha). destruct (HMr _ Hin) as (a' & [= <-] & Ha').
      exists a. split; [reflexivity|]. split; assumption. }
  destruct Hv as (a & -> & Ha1 & Ha2).
  unfold gt, lt. destruct (qltb m M) eqn:L; [|apply lit_0_in01].
  apply qltb_true in L.
  unfold div, sub, lift2. rewrite Qeq_bool_pos by (apply Qlt_minus_iff in L; exact L).
  exists ((a - m) / (M - m)). split; [reflexivity|].
  assert (Hp : 0 < M - m) by (apply Qlt_minus_iff in L; exact L).
  split.
  - apply Qle_shift_div_l; [exact Hp|]. rewrite Qmult_0_l. lra.
  - apply Qle_shift_div_r; [exact Hp|]. rewrite Qmult_1_l. lra.
Qed.

Lemma one_minus_in01 (x : num) : in01 x -> in01 (sub (lit 1) x).
Proof.
  intros (q & -> & H0 & H1). exists (1 - q). split; [reflexivity|]. split; lra.
Qed.

Lemma term_bound (n w : Q) : 0 <= n -> n <= 1 -> 0 <= w -> 0 <= n * w * 1 /\ n * w * 1 <= w.
Proof. intros. split; nra. Qed.

Lemma norms_in01 (o : BestPoolsOptions) (pools : list PoolWithAPR) (q : PoolWithAPR) :
  In q pools ->
  let b := bounds_of o pools in
  in01 (aprNorm b q) /\ in01 (tvlNorm b q) /\ in01 (volNorm b q) /\
  in01 (tvlTrendNorm b q) /\ in01 (volumeTrendNorm b q) /\
  in01 (correlationNorm o b q).
Proof.
  intros Hq b. unfold aprNorm, tvlNorm, volNorm, tvlTrendNorm, volumeTrendNorm,
    correlationNorm, b, bounds_of; cbn [minApr maxApr minTvl maxTvl minVol maxVol
    minTvlTrend maxTvlTrend minVolumeTrend maxVolumeTrend minCorrelation maxCorrelation].
  repeat split;
    try apply one_minus_in01; apply normalize_in01;
    [unfold aprs_of | unfold tvls_of | unfold vols_of | unfold tvlTrends_of
    | unfold volumeTrends_of | unfold correlations_of];
    apply (in_map (fun p => _) _ _ Hq).
Qed.

(** C8.  With [correlationWeight = 0] and non-negative weights summing to at
    most 1, every pool returned by [getBestPoolsWithScore] has a score in
    [[0, aprWeight + tvlWeight + volatilityWeight + tvlTrendWeight +
    volumeTrendWeight]]. *)
Theorem C8_score_bounds (o : BestPoolsOptions) (now : Q) (pools : list PoolWithAPR)
    (p : PoolWithAPR) (wa wt wv wtt wvt : Q) :
  pools <> [] ->
  correlationWeight o = lit 0 ->
  aprWeight o = lit wa -> tvlWeight o = lit wt -> volatilityWeight o = lit wv ->
  tvlTrendWeight o = lit wtt -> volumeTrendWeight o = lit wvt ->
  0 <= wa -> 0 <= wt -> 0 <= wv -> 0 <= wtt -> 0 <= wvt ->
  wa + wt + wv + wtt + wvt <= 1 ->
  In p (getBestPoolsWithScore o now pools) ->
  exists s, score p = Some (Some s) /\ 0 <= s /\ s <= wa + wt + wv + wtt + wvt.
Proof.
  intros _ Hcw Ha Ht Hv Htt Hvt Pa Pt Pv Ptt Pvt _ Hin.
  apply in_getBestPoolsWithScore in Hin as (q & Hq & _ & ->).
  destruct (norms_in01 o pools q Hq) as (N1 & N2 & N3 & N4 & N5 & N6).
  set (b := bounds_of o pools) in *.
  destruct N1 as (n1 & E1 & A1 & B1); destruct N2 as (n2 & E2 & A2 & B2);
  destruct N3 as (n3 & E3 & A3 & B3); destruct N4 as (n4 & E4 & A4 & B4);
  destruct N5 as (n5 & E5 & A5 & B5); destruct N6 as (n6 & E6 & A6 & B6).
  unfold score_pool. cbn [score]. rewrite Hcw, Ha, Ht, Hv, Htt, Hvt.
  change (strict_eq (lit 0) (lit 0)) with true. change (ge (lit 0) (lit 0)) with true.
  cbn [negb]. rewrite E1, E2, E3, E4, E5, E6.
  eexists. split; [reflexivity|].
  destruct (term_bound n1 wa A1 B1 Pa); destruct (term_bound n2 wt A2 B2 Pt);
  destruct (term_bound n3 wv A3 B3 Pv); destruct (term_bound n4 wtt A4 B4 Ptt);
  destruct (term_bound n5 wvt A5 B5 Pvt).
  rewrite Qmult_0_r.
  set (t1 := n1 * wa * 1) in *; set (t2 := n2 * wt * 1) in *;
  set (t3 := n3 * wv * 1) in *; set (t4 := n4 * wtt * 1) in *;
  set (t5 := n5 * wvt * 1) in *.
  split; lra.
Qed.

Lemma C8_score_bounds_witness :
  exists s, score (hd (scored_input pool_exotic NaN NaN NaN NaN)
                      (getBestPoolsWithScore (sample_options 0) 0 sample_pools)) = Some (Some s) /\
            0 <= s /\ s <= (4 # 10) + (2 # 10) + (2 # 10) + (1 # 10) + (1 # 10).
Proof.
  apply (C8_score_bounds (sample_options 0) 0 sample_pools _ (4 # 10) (2 # 10)
           (2 # 10) (1 # 10) (1 # 10)); try reflexivity; try discriminate.
  vm_compute. left. reflexivity.
Defined.

(** ** Filter monotonicity *)

Lemma pool_filter_minTVL (o : BestPoolsOptions) (now t1 t2 : Q) (x : PoolWithAPR) :
  t1 <= t2 ->
  pool_filter (set_minTVL o (lit t2)) now x = true ->
  pool_filter (set_minTVL o (lit t1)) now x = true.
Proof.
  intros Hle H. unfold pool_filter in *. cbn [set_minTVL minTVL minAPR maxPoolAgeDays
    preferredFeeTiers minTokenCorrelation maxTokenCorrelation corrOpts] in *.
  apply andb_prop in H as [H Hc]; apply andb_prop in H as [H Hf];
  apply andb_prop in H as [H Hg]; apply andb_prop in H as [Hapr Htvl].
  rewrite Hc, Hf, Hg, Hapr. rewrite !andb_true_r. cbn [andb].
  destruct (totalValueLockedUSD (base x)) as [a|]; [|discriminate].
  unfold ge, le, lit in *. apply Qle_bool_iff in Htvl. apply Qle_bool_iff.
  eapply Qle_trans; eassumption.
Qed.

(** C9.  For fixed fetched pools and fixed other options, raising [minTVL]
    never increases the number of pools [getBestPoolsWithScore] returns. *)
Theorem C9_minTVL_monotone (o : BestPoolsOptions) (now : Q) (pools : list PoolWithAPR)
    (t1 t2 : Q) :
  t1 <= t2 ->
  (length (getBestPoolsWithScore (set_minTVL o (lit t2)) now pools) <=
   length (getBestPoolsWithScore (set_minTVL o (lit t1)) now pools))%nat.
Proof.
  intro Hle. unfold getBestPoolsWithScore.
  destruct pools as [|p0 r]; [apply Nat.le_refl|].
  cbn [topN set_minTVL]. apply length_slice0_mono.
  rewrite !length_sort_by_score, !length_map.
  apply length_filter_mono. intro x. apply pool_filter_minTVL. exact Hle.
Qed.

Lemma C9_minTVL_monotone_witness :
  (100000 <= 1000000) /\
  (length (getBestPoolsWithScore (set_minTVL (sample_options 0) (lit 1000000)) 0 sample_pools) <=
   length (getBestPoolsWithScore (set_minTVL (sample_options 0) (lit 100000)) 0 sample_pools))%nat.
Proof.
  split; [discriminate|]. apply C9_minTVL_monotone. discriminate.
Defined.

(** ** Position sizing *)

Lemma fold_add_none (l : list num) : fold_left add l None = None.
Proof. induction l as [|x r IH]; simpl; [reflexivity | exact IH]. Qed.

Lemma fold_add_some (l : list num) (a : Q) :
  (forall x, In x l -> x <> None) ->
  exists s, fold_left add l (Some a) = Some s /\ s == a + qsum (map getq l).
Proof.
  revert a. induction l as [|x r IH]; intros a H.
  - exists a. split; [reflexivity | simpl; ring].
  - destruct x as [q|]; [|exfalso; apply (H None); [left|]; reflexivity].
    destruct (IH (a + q)) as (s & Hs & Hq); [intros y Hy; apply H; right; exact Hy|].
    exists s. split; [exact Hs|]. rewrite Hq. simpl. ring.
Qed.

Lemma fold_add_some_inv (l : list num) (a s : Q) :
  fold_left add l (Some a) = Some s -> forall x, In x l -> x <> None.
Proof.
  revert a. induction l as [|x r IH]; intros a H y Hy; [destruct Hy|].
  cbn [fold_left] in H. destruct x as [q|]; [|rewrite fold_add_none in H; discriminate].
  destruct Hy as [<- | Hy]; [discriminate|]. exact (IH _ H y Hy).
Qed.

Lemma sum_some (l : list num) :
  (forall x, In x l -> x <> None) ->
  exists s, sum l = Some s /\ s == qsum (map getq l).
Proof.
  intro H. destruct (fold_add_some l 0 H) as (s & Hs & Hq).
  exists s. split; [exact Hs|]. rewrite Hq. ring.
Qed.

Lemma fold_sub_some {A} (f : A -> num) (l : list A) (a : Q) :
  (forall x, In x l -> f x <> None) ->
  exists s, fold_left (fun r x => sub r (f x)) l (Some a) = Some s /\
            s == a - qsum (map (fun x => getq (f x)) l).
Proof.
  revert a. induction l as [|x r IH]; intros a H.
  - exists a. split; [reflexivity | simpl; ring].
  - cbn [fold_left]. destruct (f x) as [q|] eqn:E;
      [|exfalso; apply (H x); [left; reflexivity | exact E]].
    destruct (IH (a - q)) as (s & Hs & Hq); [intros y Hy; apply H; right; exact Hy|].
    exists s. split; [exact Hs|]. rewrite Hq. simpl. rewrite E. simpl. ring.
Qed.

Lemma qsum_map_ext {A} (f g : A -> Q) (l : list A) :
  (forall x, In x l -> f x == g x) -> qsum (map f l) == qsum (map g l).
Proof.
  induction l as [|x r IH]; intro H; simpl; [reflexivity|].
  rewrite (H x (or_introl eq_refl)), IH; [reflexivity|].
  intros y Hy. apply H. right. exact Hy.
Qed.

Lemma qsum_map_plus {A} (f g : A -> Q) (l : list A) :
  qsum (map (fun x => f x + g x) l) == qsum (map f l) + qsum (map g l).
Proof. induction l as [|x r IH]; simpl; [ring | rewrite IH; ring]. Qed.

Lemma qsum_map_scale {A} (c : Q) (f : A -> Q) (l : list A) :
  qsum (map (fun x => c * f x) l) == c * qsum (map f l).
Proof. induction l as [|x r IH]; simpl; [ring | rewrite IH; ring]. Qed.

Lemma qsum_filter {A} (f : A -> Q) (P : A -> bool) (l : list A) :
  qsum (map (fun x => if P x then f x else 0) l) == qsum (map f (filter P l)).
Proof.
  induction l as [|x r IH]; simpl; [reflexivity|].
  destruct (P x); simpl; rewrite IH; ring.
Qed.

Lemma spec_excess_nonneg (M : Q) (ps : list Position) : 0 <= spec_excess M ps.
Proof.
  unfold spec_excess. induction ps as [|x r IH]; simpl; [apply Qle_refl|].
  destruct (qltb M (getq (percentage x))) eqn:E.
  - apply qltb_true in E. lra.
  - lra.
Qed.

Lemma length_filter_lt {A} (f : A -> bool) (l : list A) (x : A) :
  In x l -> f x = false -> (length (filter f l) < length l)%nat.
Proof.
  intros Hx Hf. induction l as [|y r IH]; [destruct Hx|].
  simpl. destruct Hx as [-> | Hx].
  - rewrite Hf. pose proof (filter_length_le f r) as L. simpl. lia.
  - specialize (IH Hx). destruct (f y); simpl; lia.
Qed.

Lemma first_pass_eq (m : num) (ps : list Position) (rem : num) (c : Z) :
  first_pass m ps rem c =
    (map (cap1 m) ps,
     fold_left (fun r x => sub r (percentage (cap1 m x))) ps rem,
     (c - Z.of_nat (length (filter (fun x => gt (percentage x) m) ps)))%Z).
Proof.
  revert rem c. induction ps as [|x r IH]; intros rem c.
  - simpl. f_equal. lia.
  - cbn [first_pass map fold_left filter]. destruct (gt (percentage x) m) eqn:E.
    + assert (Hc : cap1 m x = set_percentage x m) by (unfold cap1; rewrite E; reflexivity).
      rewrite Hc, IH. cbn [length percentage set_percentage]. f_equal. lia.
    + assert (Hc : cap1 m x = x) by (unfold cap1; rewrite E; reflexivity).
      rewrite Hc, IH. reflexivity.
Qed.

Lemma qltb_asym (a b : Q) : qltb a b = true -> qltb b a = false.
Proof.
  intro H. apply qltb_true in H. destruct (qltb b a) eqn:E; [|reflexivity].
  apply qltb_true in E. exfalso. lra.
Qed.

Lemma qltb_irrefl (a : Q) : qltb a a = false.
Proof. destruct (qltb a a) eqn:E; [apply qltb_true in E; lra | reflexivity]. Qed.

Lemma filter_lt_cap (M : Q) (ps : list Position) :
  filter (fun p => lt (percentage p) (lit M)) (map (cap1 (lit M)) ps) =
  filter (fun p => lt (percentage p) (lit M)) ps.
Proof.
  induction ps as [|x r IH]; [reflexivity|].
  cbn [map filter]. destruct (gt (percentage x) (lit M)) eqn:E.
  - assert (Hc : cap1 (lit M) x = set_percentage x (lit M))
      by (unfold cap1; rewrite E; reflexivity).
    rewrite Hc. cbn [percentage set_percentage]. unfold lit at 1 2. unfold lt at 1.
    rewrite qltb_irrefl. rewrite IH.
    destruct (percentage x) as [p|]; [|reflexivity].
    unfold gt, lt, lit in E |- *. rewrite (qltb_asym _ _ E). reflexivity.
  - assert (Hc : cap1 (lit M) x = x) by (unfold cap1; rewrite E; reflexivity).
    rewrite Hc, IH. reflexivity.
Qed.

Lemma Forall2_map_r {A B} (R : A -> B -> Prop) (f : A -> B) (l : list A) :
  (forall x, In x l -> R x (f x)) -> Forall2 R l (map f l).
Proof.
  induction l as [|x r IH]; intro H; constructor.
  - apply H. left. reflexivity.
  - apply IH. intros y Hy. apply H. right. exact Hy.
Qed.

Lemma getq_cap1 (M : Q) (x : Position) (p : Q) :
  percentage x = Some p ->
  percentage (cap1 (lit M) x) = Some (if qltb M p then M else p).
Proof.
  intro E. unfold cap1, gt, lt, lit. rewrite E.
  destruct (qltb M p); [reflexivity | exact E].
Qed.

Lemma cap_sum (M : Q) (ps : list Position) :
  (forall x, In x ps -> percentage x <> None) ->
  qsum (map (fun x => getq (percentage (cap1 (lit M) x))) ps) ==
  qsum (map (fun x => getq (percentage x)) ps) - spec_excess M ps.
Proof.
  unfold spec_excess. induction ps as [|x r IH]; intro H; simpl; [ring|].
  destruct (percentage x) as [p|] eqn:E; [|exfalso; apply (H x); [left|]; auto].
  rewrite (getq_cap1 M x p E). simpl.
  rewrite IH by (intros y Hy; apply H; right; exact Hy).
  destruct (qltb M p); ring.
Qed.

Lemma second_pass_eq (M r W : Q) (ps1 : list Position) (cnt : Z) :
  sum (map weightedScore (filter (fun p => lt (percentage p) (lit M)) ps1)) = Some W ->
  second_pass (lit M) ps1 (Some r) cnt =
    if gt (Some r) (lit 0) && Z.ltb 0 cnt then map (redist1 M r W) ps1 else ps1.
Proof. intro H. unfold second_pass. rewrite H. reflexivity. Qed.

Lemma Qeq_bool_nz (W : Q) : ~ W == 0 -> Qeq_bool W 0 = false.
Proof.
  intro H. destruct (Qeq_bool W 0) eqn:E; [|reflexivity].
  apply Qeq_bool_iff in E. contradiction.
Qed.

Lemma redist_cap_pct (M r W : Q) (x : Position) (p w : Q) :
  ~ W == 0 -> percentage x = Some p -> weightedScore x = Some w ->
  percentage (redist1 M r W (cap1 (lit M) x)) =
    Some (if qltb M p then M else if qltb p M then p + r * (w / W) else p).
Proof.
  intros HW Ep Ew. unfold redist1, cap1, gt, lt, lit. rewrite Ep.
  destruct (qltb M p) eqn:E1.
  - cbn [percentage set_percentage]. rewrite qltb_irrefl. reflexivity.
  - cbv beta iota. rewrite Ep. destruct (qltb p M); [|exact Ep].
    cbn [percentage set_percentage weightedScore]. rewrite Ew.
    unfold add, mul, lift2, div. rewrite (Qeq_bool_nz W HW). reflexivity.
Qed.

Lemma sum_value (l : list num) (W : Q) : sum l = Some W -> W == qsum (map getq l).
Proof.
  intro H. destruct (sum_some l) as (s & Hs & Hq).
  - exact (fold_add_some_inv l 0 W H).
  - rewrite H in Hs. injection Hs as ->. exact Hq.
Qed.

Lemma cap_and_redistribute_core (M W : Q) (ps : list Position) :
  (forall x, In x ps -> percentage x <> None /\ weightedScore x <> None) ->
  qsum (map (fun x => getq (percentage x)) ps) == 100 ->
  (exists x p, In x ps /\ percentage x = Some p /\ p < M) ->
  sum (map weightedScore (filter (fun x => lt (percentage x) (lit M)) ps)) = Some W ->
  ~ W == 0 ->
  Forall2 (fun a b => gt (percentage a) (lit M) = true -> percentage b = lit M)
    ps (cap_and_redistribute (lit M) ps) /\
  Forall2 (fun a b => lt (percentage a) (lit M) = true ->
     exists p w q, percentage a = Some p /\ weightedScore a = Some w /\
                   percentage b = Some q /\ q == p + spec_excess M ps * (w / W))
    ps (cap_and_redistribute (lit M) ps) /\
  exists s, sum (map percentage (cap_and_redistribute (lit M) ps)) = Some s /\ s == 100.
Proof.
  intros Hdef H100 (x0 & p0 & Hx0 & Ep0 & Lp0) HW HW0.
  assert (Hval : forall x, In x ps -> exists p w, percentage x = Some p /\ weightedScore x = Some w).
  { intros x Hx. destruct (Hdef x Hx) as [Hp Hw].
    destruct (percentage x) as [p|]; [|contradiction].
    destruct (weightedScore x) as [w|]; [|contradiction]. exists p, w. split; reflexivity. }
  destruct (fold_sub_some (fun x => percentage (cap1 (lit M) x)) ps 100) as (r & Hr & Hrq).
  { intros x Hx. destruct (Hval x Hx) as (p & w & Ep & _).
    rewrite (getq_cap1 M x p Ep). discriminate. }
  cbv beta in Hr, Hrq.
  assert (HrE : r == spec_excess M ps).
  { rewrite Hrq, cap_sum by (intros x Hx; apply Hdef, Hx). rewrite H100. ring. }
  assert (Hcnt : Z.ltb 0 (Z.of_nat (length ps) -
            Z.of_nat (length (filter (fun x => gt (percentage x) (lit M)) ps))) = true).
  { apply Z.ltb_lt.
    assert (L : (length (filter (fun x => gt (percentage x) (lit M)) ps) < length ps)%nat).
    { apply (length_filter_lt _ _ x0 Hx0). unfold gt, lt, lit. rewrite Ep0.
      apply qltb_asym. apply qltb_true. exact Lp0. }
    lia. }
  assert (HWq : W == qsum (map (fun x => getq (weightedScore x))
                                (filter (fun x => lt (percentage x) (lit M)) ps))).
  { rewrite (sum_value _ _ HW), map_map. reflexivity. }
  unfold cap_and_redistribute. rewrite first_pass_eq. cbv beta iota.
  change (lit 100) with (Some 100). rewrite Hr.
  rewrite (second_pass_eq M r W) by (rewrite filter_lt_cap; exact HW).
  rewrite Hcnt, andb_true_r.
  destruct (gt (Some r) (lit 0)) eqn:Hg.
  - rewrite map_map. split; [|split].
    + apply Forall2_map_r. intros x Hx Hgt. destruct (Hval x Hx) as (p & w & Ep & Ew).
      rewrite (redist_cap_pct M r W x p w HW0 Ep Ew).
      unfold gt, lt, lit in Hgt. rewrite Ep in Hgt. rewrite Hgt. reflexivity.
    + apply Forall2_map_r. intros x Hx Hlt. destruct (Hval x Hx) as (p & w & Ep & Ew).
      rewrite (redist_cap_pct M r W x p w HW0 Ep Ew).
      unfold lt, lit in Hlt. rewrite Ep in Hlt. rewrite Hlt, (qltb_asym _ _ Hlt).
      exists p, w, (p + r * (w / W)). repeat split; [assumption | assumption |].
      rewrite HrE. reflexivity.
    + destruct (sum_some (map percentage (map (fun x => redist1 M r W (cap1 (lit M) x)) ps)))
        as (s & Hs & Hsq).
      { intros v Hv. apply in_map_iff in Hv as (y & <- & Hy).
        apply in_map_iff in Hy as (x & <- & Hx). destruct (Hval x Hx) as (p & w & Ep & Ew).
        rewrite (redist_cap_pct M r W x p w HW0 Ep Ew). discriminate. }
      exists s. split; [exact Hs|]. rewrite Hsq, !map_map.
      rewrite (qsum_map_ext _ (fun x => getq (percentage (cap1 (lit M) x)) +
                 (if lt (percentage x) (lit M) then r / W * getq (weightedScore x) else 0))).
      * rewrite qsum_map_plus, cap_sum by (intros x Hx; apply Hdef, Hx).
        rewrite qsum_filter, qsum_map_scale, <- HWq, H100, HrE. field. exact HW0.
      * intros x Hx. destruct (Hval x Hx) as (p & w & Ep & Ew).
        rewrite (redist_cap_pct M r W x p w HW0 Ep Ew), (getq_cap1 M x p Ep), Ep, Ew.
        unfold lt, lit. simpl getq.
        destruct (qltb M p) eqn:E1.
        -- rewrite (qltb_asym _ _ E1). ring.
        -- destruct (qltb p M); [field; exact HW0 | ring].
  - assert (HE0 : spec_excess M ps == 0).
    { unfold gt, lt, lit in Hg. pose proof (spec_excess_nonneg M ps).
      assert (~ 0 < r) by (intro Hr0; apply qltb_true in Hr0; congruence). lra. }
    split; [|split].
    + apply Forall2_map_r. intros x Hx Hgt. destruct (Hval x Hx) as (p & w & Ep & Ew).
      rewrite (getq_cap1 M x p Ep).
      unfold gt, lt, lit in Hgt. rewrite Ep in Hgt. rewrite Hgt. reflexivity.
    + apply Forall2_map_r. intros x Hx Hlt. destruct (Hval x Hx) as (p & w & Ep & Ew).
      rewrite (getq_cap1 M x p Ep).
      unfold lt, lit in Hlt. rewrite Ep in Hlt. rewrite (qltb_asym _ _ Hlt).
      exists p, w, p. repeat split; [assumption | assumption |].
      rewrite HE0. ring.
    + destruct (sum_some (map percentage (map (cap1 (lit M)) ps))) as (s & Hs & Hsq).
      { intros v Hv. apply in_map_iff in Hv as (y & <- & Hy).
        apply in_map_iff in Hy as (x & <- & Hx). destruct (Hval x Hx) as (p & w & Ep & Ew).
        rewrite (getq_cap1 M x p Ep). discriminate. }
      exists s. split; [exact Hs|]. rewrite Hsq, !map_map.
      rewrite cap_sum by (intros x Hx; apply Hdef, Hx). rewrite H100, HE0. ring.
Qed.

Lemma normalize_core (ps0 : list Position) (t : Q) :
  sum (map weightedScore ps0) = Some t -> ~ t == 0 ->
  map weightedScore (normalize_percentages ps0) = map weightedScore ps0 /\
  (forall x, In x (normalize_percentages ps0) ->
     percentage x <> None /\ weightedScore x <> None) /\
  qsum (map (fun x => getq (percentage x)) (normalize_percentages ps0)) == 100.
Proof.
  intros Ht Ht0. pose proof (fold_add_some_inv _ _ _ Ht) as Hdef.
  pose proof (sum_value _ _ Ht) as Htq.
  unfold normalize_percentages. cbv zeta. rewrite Ht.
  split; [|split].
  - rewrite map_map. reflexivity.
  - intros x Hx. apply in_map_iff in Hx as (y & <- & Hy).
    assert (Hw : weightedScore y <> None) by (apply Hdef, in_map, Hy).
    cbn [percentage weightedScore set_percentage]. split; [|exact Hw].
    destruct (weightedScore y) as [w|]; [|contradiction].
    unfold mul, div, lift2, lit. rewrite (Qeq_bool_nz t Ht0). discriminate.
  - rewrite map_map.
    rewrite (qsum_map_ext _ (fun y => 100 / t * getq (weightedScore y))).
    + rewrite qsum_map_scale, <- map_map with (f := weightedScore) (g := getq), <- Htq.
      field. exact Ht0.
    + intros y Hy. assert (Hw : weightedScore y <> None) by (apply Hdef, in_map, Hy).
      cbn [percentage set_percentage]. destruct (weightedScore y) as [w|]; [|contradiction].
      unfold mul, div, lift2, lit. rewrite (Qeq_bool_nz t Ht0). simpl getq. field. exact Ht0.
Qed.

Lemma initial_positions_eq (pools : list PoolWithAPR) (strategy : option StrategyKey) :
  exists ps0, initial_positions pools strategy = normalize_percentages ps0.
Proof. eexists. reflexivity. Qed.

Lemma sum_nil_or_in (l : list Position) (W : Q) :
  sum (map weightedScore l) = Some W -> ~ W == 0 -> exists x, In x l.
Proof.
  destruct l as [|x r]; intros H HW.
  - injection H as <-. exfalso. apply HW. reflexivity.
  - exists x. left. reflexivity.
Qed.

(** C6 (counterexample): with [maxPositionPercentage = 20] and three equally
    scored pools under the medium profile (total score 3 > 0, so the
    score-weighted branch runs), every normalized share (about 42.9, 33.3 and
    23.8) exceeds the cap; all three end at 20, no position is left to take
    the excess, and the percentages sum to 60, not 100. *)
Lemma C6_counterexample :
  le (total_selected_score three_pools (Some medium)) (lit 0) = false /\
  Forall (fun x => gt (percentage x) (lit 20) = true) (initial_positions three_pools (Some medium)) /\
  sum (map percentage (cap_and_redistribute (lit 20) (initial_positions three_pools (Some medium))))
    = Some 60 /\
  map size_percentage
      (calculatePositionSizes three_pools (lit 100000) (Some (lit 20)) (lit 0) (Some medium))
    = [lit 20; lit 20; lit 20].
Proof.
  split; [vm_compute; reflexivity|].
  split; [vm_compute; repeat constructor|].
  split; vm_compute; reflexivity.
Qed.

(** C6 (amended): let [M] be the cap and [ps] the normalized positions of
    the score-weighted branch, whose weighted scores have a nonzero total.
    If the positions whose share is below [M] have a nonzero total weighted
    score [W], then after the cap-and-redistribute passes (before the
    minimum-size filter): (a) every position whose share exceeded [M] ends
    at exactly [M]; (b) every position below [M] ends at its share plus the
    capped excess (the sum of [share - M] over the oversized positions)
    times its weighted score over [W]; (c) the percentages sum to 100
    within rounding tolerance: exactly 100 in this exact-rational model,
    which abstracts away floating-point rounding. *)
Theorem C6_position_caps_amended (pools : list PoolWithAPR) (maxOpt : option num)
    (strategy : option StrategyKey) (M t W : Q) :
  maxPercent_of maxOpt (DEFAULT_POSITION_SIZING (riskProfile strategy)) = lit M ->
  sum (map weightedScore (initial_positions pools strategy)) = Some t -> ~ t == 0 ->
  sum (map weightedScore
         (filter (fun x => lt (percentage x) (lit M)) (initial_positions pools strategy)))
    = Some W ->
  ~ W == 0 ->
  let ps := initial_positions pools strategy in
  let fin := cap_and_redistribute
               (maxPercent_of maxOpt (DEFAULT_POSITION_SIZING (riskProfile strategy))) ps in
  Forall2 (fun a b => gt (percentage a) (lit M) = true -> percentage b = lit M) ps fin /\
  Forall2 (fun a b => lt (percentage a) (lit M) = true ->
     exists p w q, percentage a = Some p /\ weightedScore a = Some w /\
                   percentage b = Some q /\ q == p + spec_excess M ps * (w / W)) ps fin /\
  exists s, sum (map percentage fin) = Some s /\ s == 100.
Proof.
  intros HM Ht Ht0 HW HW0 ps fin. subst fin. rewrite HM. subst ps.
  destruct (initial_positions_eq pools strategy) as (ps0 & E0).
  rewrite E0 in Ht, HW |- *.
  assert (Ht' : sum (map weightedScore ps0) = Some t).
  { rewrite <- Ht. unfold normalize_percentages. cbv zeta.
    rewrite map_map. reflexivity. }
  destruct (normalize_core ps0 t Ht' Ht0) as (_ & Hdef & H100).
  apply cap_and_redistribute_core; [exact Hdef | exact H100 | | exact HW | exact HW0].
  destruct (sum_nil_or_in _ _ HW HW0) as (x & Hx).
  apply filter_In in Hx as (Hx & Hlt).
  unfold lt, lit in Hlt. destruct (percentage x) as [p|] eqn:Ep; [|discriminate].
  exists x, p. split; [exact Hx|]. split; [exact Ep|]. apply qltb_true. exact Hlt.
Qed.

(** C6 (amended), instance: the dominant pool of the medium profile (share
    about 82.6) is capped at 40 and the two others absorb the excess. *)
Lemma C6_position_caps_amended_witness :
  let ps := initial_positions dominant_pools (Some medium) in
  let fin := cap_and_redistribute (lit 40) ps in
  Forall2 (fun a b => gt (percentage a) (lit 40) = true -> percentage b = lit 40) ps fin /\
  Forall2 (fun a b => lt (percentage a) (lit 40) = true ->
     exists p w q, percentage a = Some p /\ weightedScore a = Some w /\
                   percentage b = Some q /\
                   q == p + spec_excess 40 ps * (w / (7600 # 20000))) ps fin /\
  exists s, sum (map percentage fin) = Some s /\ s == 100.
Proof.
  exact (C6_position_caps_amended dominant_pools None (Some medium) 40
           (872000 # 400000) (7600 # 20000) eq_refl
           ltac:(vm_compute; reflexivity) ltac:(vm_compute; discriminate)
           ltac:(vm_compute; reflexivity) ltac:(vm_compute; discriminate)).
Defined.

(** ** Rebalance recommendations *)

Lemma insert_by_priority_perm (x : RebalanceAction) (l : list RebalanceAction) :
  Permutation (insert_by_priority x l) (x :: l).
Proof.
  induction l as [|y r IH]; cbn [insert_by_priority]; [reflexivity|].
  destruct (gt (priority_cmp y x) (lit 0)); [reflexivity|].
  rewrite IH. apply perm_swap.
Qed.

Lemma sort_by_priority_perm (l : list RebalanceAction) : Permutation (sort_by_priority l) l.
Proof.
  unfold sort_by_priority.
  assert (G : forall acc, Permutation (fold_left (fun acc x => insert_by_priority x acc) l acc)
                                      (l ++ acc)).
  { induction l as [|x r IH]; intro acc; simpl; [reflexivity|].
    rewrite IH, insert_by_priority_perm. apply Permutation_sym, Permutation_middle. }
  rewrite G, app_nil_r. reflexivity.
Qed.

Lemma analyze_low_apr (nr : PriceRange -> PriceRange -> num -> num -> bool)
    (pools : list PoolWithAPR) (strat : option StrategyKey) (thr : num)
    (pos : HeldPosition) (p : PoolWithAPR) (a : Q) :
  pools_get pools (hp_poolId pos) = Some p -> apr p = Some (Some a) -> a < 5 ->
  exists act, analyze_position nr pools strat thr pos = Some act /\
    actionType act = EXIT_POSITION /\ act_poolId act = hp_poolId pos /\ priority act = lit 9.
Proof.
  intros Hp Ha Ha5. unfold analyze_position. rewrite Hp, Ha.
  assert (L : lt (Some a) (lit 5) = true) by (apply qltb_true; exact Ha5).
  cbv beta iota zeta. rewrite L.
  destruct (priceRange pos) as [r|]; [destruct (nr _ _ _ _)|];
  destruct (gt (abs (lit 0)) thr);
  (destruct (correlation p) as [c|]; [destruct (lt c _)|]);
  cbv beta iota zeta;
  (eexists; split; [reflexivity | repeat split; vm_compute; reflexivity]).
Qed.

(** C7: for every held position whose pool (the one [poolsMap.get] returns)
    has a non-null APR [a < 5], the recommendations contain an
    [EXIT_POSITION] action for that pool id with priority 9, whatever the
    range check returns, whatever the threshold, correlation, strategy and
    other positions are. *)
Theorem C7_low_apr_exit (rangeCheck : PriceRange -> PriceRange -> num -> num -> bool)
    (currentPools : list PoolWithAPR) (options : PositionRebalanceOptions)
    (position : HeldPosition) (pool : PoolWithAPR) (a : Q) :
  In position (currentPositions options) ->
  pools_get currentPools (hp_poolId position) = Some pool ->
  apr pool = Some (Some a) -> a < 5 ->
  exists act, In act (generateRebalanceRecommendations rangeCheck currentPools options) /\
    actionType act = EXIT_POSITION /\ act_poolId act = hp_poolId position /\
    priority act = lit 9.
Proof.
  intros Hin Hp Ha Ha5.
  destruct (analyze_low_apr rangeCheck currentPools (strategy options)
              (match minActionThreshold options with Some v => v | None => lit 10 end)
              position pool a Hp Ha Ha5) as (act & Hact & Ht & Hid & Hpr).
  exists act. split; [|exact (conj Ht (conj Hid Hpr))].
  unfold generateRebalanceRecommendations. cbv zeta.
  eapply Permutation_in; [apply Permutation_sym, sort_by_priority_perm|].
  apply in_or_app. left. apply in_flat_map. exists position. split; [exact Hin|].
  rewrite Hact. left. reflexivity.
Qed.

(** C7, instance: the position in the 3% pool, which also fails the
    correlation threshold and sits near its range boundary. *)
Lemma C7_low_apr_exit_witness :
  exists act, In act (generateRebalanceRecommendations needsRangeAdjustment
                        [pool_healthy; pool_low_apr] rebalance_options) /\
    actionType act = EXIT_POSITION /\ act_poolId act = "0xlow"%string /\
    priority act = lit 9.
Proof.
  exact (C7_low_apr_exit needsRangeAdjustment [pool_healthy; pool_low_apr] rebalance_options
           {| hp_poolId := "0xlow"; size := lit 3000;
              priceRange := Some {| lowerPrice := lit (95 # 100); upperPrice := lit (105 # 100) |} |}
           pool_low_apr 3
           ltac:(simpl; auto) ltac:(vm_compute; reflexivity) eq_refl
           ltac:(vm_compute; reflexivity)).
Defined.

(** ** Pool cache refresh *)

(** C1 (counterexample): the medium tier holds one pool; a refresh in which
    both the v3 and the v4 query are rejected (one times out, one fails)
    replaces that entry by an empty one. *)
Lemma C1_counterexample :
  pools (cache_get warm_cache medium) = [pool_healthy] /\
  cache_get (refreshStrategyPools warm_cache medium
               (Rejected "Uniswap v3 query timed out after 15 seconds")
               (Rejected "subgraph unavailable") 2000) medium =
    {| pools := []; averageApr := lit 0; timestamp := 2000 |}.
Proof. split; reflexivity. Qed.

(** C1 (amended): when every source of a refresh of tier [strategy] is
    rejected (failure or timeout), the refresh replaces that tier's entry
    by an empty one (no pools, average APR 0, the refresh time as
    timestamp), whatever the previous entry held; the other tiers are
    unchanged. *)
Theorem C1_total_failure_amended (cachedPools : CachedPools) (strategy : StrategyKey)
    (e3 e4 : string) (now : Z) (k : StrategyKey) :
  cache_get (refreshStrategyPools cachedPools strategy (Rejected e3) (Rejected e4) now) k =
    if StrategyKey_eqb k strategy
    then {| pools := []; averageApr := lit 0; timestamp := now |}
    else cache_get cachedPools k.
Proof. destruct strategy, k; reflexivity. Qed.

(** ** Impermanent loss estimate *)

Module ImpermanentLossFacts.
Import Stdlib.Reals.Reals.
Import ImpermanentLoss.
Local Open Scope R_scope.

Lemma il_closed_form (i p : R) :
  -100 < p ->
  estimateImpermanentLoss i p =
    - ((sqrt (1 + p / 100) - 1) * (sqrt (1 + p / 100) - 1)) * 100
    * / (1 + sqrt (1 + p / 100) * sqrt (1 + p / 100)).
Proof.
  intro Hp. unfold estimateImpermanentLoss.
  assert (Hr : 0 <= 1 + p / 100) by Lra.lra.
  pose proof (sqrt_sqrt _ Hr) as Hs.
  pose proof (sqrt_pos (1 + p / 100)) as Hs0.
  set (s := sqrt (1 + p / 100)) in *. rewrite <- Hs.
  field. Lra.nra.
Qed.

(** C10: [estimateImpermanentLoss] never reads [initialPrice]; for every
    [priceChangePercent > -100] its result is at most 0, and it is 0
    exactly when [priceChangePercent = 0]. *)
Theorem C10_impermanent_loss (initialPrice priceChangePercent : R) :
  (forall initialPrice', estimateImpermanentLoss initialPrice priceChangePercent =
                         estimateImpermanentLoss initialPrice' priceChangePercent) /\
  (-100 < priceChangePercent ->
     estimateImpermanentLoss initialPrice priceChangePercent <= 0 /\
     (estimateImpermanentLoss initialPrice priceChangePercent = 0 <-> priceChangePercent = 0)).
Proof.
  split; [intro; reflexivity|]. intro Hp.
  rewrite (il_closed_form _ _ Hp).
  assert (Hr : 0 <= 1 + priceChangePercent / 100) by Lra.lra.
  pose proof (sqrt_sqrt _ Hr) as Hs. pose proof (sqrt_pos (1 + priceChangePercent / 100)) as Hs0.
  set (s := sqrt (1 + priceChangePercent / 100)) in *.
  assert (Ht : 0 < / (1 + s * s)) by (apply Rinv_0_lt_compat; Lra.nra).
  set (t := / (1 + s * s)) in *.
  assert (Hq : 0 <= (s - 1) * (s - 1) * t)
    by (apply Rmult_le_pos; [apply Rle_0_sqr | Lra.lra]).
  split; [Lra.nra|]. split.
  - intro H0.
    assert (Hs1 : (s - 1) * (s - 1) = 0).
    { assert (E : (s - 1) * (s - 1) * (100 * t) = 0) by Lra.lra.
      apply Rmult_integral in E as [E | E]; [exact E | Lra.nra]. }
    assert (s = 1) by Lra.nra. subst s. Lra.nra.
  - intro H0. assert (s = 1).
    { subst s. rewrite H0. replace (1 + 0 / 100) with 1 by field. apply sqrt_1. }
    rewrite H. ring.
Qed.

(** C10, instance: no loss when the price does not move, from any initial
    price. *)
Lemma C10_impermanent_loss_witness :
  estimateImpermanentLoss 1 0 = estimateImpermanentLoss 2 0 /\
  estimateImpermanentLoss 1 0 <= 0 /\ estimateImpermanentLoss 1 0 = 0.
Proof.
  destruct (C10_impermanent_loss 1 0) as [Hi Hp].
  destruct (Hp ltac:(Lra.lra)) as [Hle Heq].
  split; [apply Hi|]. split; [exact Hle|]. apply Heq. reflexivity.
Defined.

End ImpermanentLossFacts.

(** * Further properties of the code *)

Lemma sum_lit {A} (f : A -> Q) (l : list A) :
  exists s, sum (map (fun x => lit (f x)) l) = Some s /\ s == qsum (map f l).
Proof.
  destruct (sum_some (map (fun x => lit (f x)) l)) as (s & Hs & Hq).
  - intros y Hy. apply in_map_iff in Hy as (x & <- & _). discriminate.
  - exists s. split; [exact Hs|]. rewrite Hq, map_map. reflexivity.
Qed.

Lemma combine_map_same {A B C} (f : A -> B) (g : A -> C) (l : list A) :
  combine (map f l) (map g l) = map (fun x => (f x, g x)) l.
Proof. induction l as [|x r IH]; simpl; [reflexivity | rewrite IH; reflexivity]. Qed.

Lemma qsum_const {A} (c : Q) (l : list A) :
  qsum (map (fun _ => c) l) == c * (Z.of_nat (length l) # 1).
Proof.
  induction l as [|x r IH]; cbn [map qsum length]; [ring|]. rewrite IH.
  replace (Z.of_nat (S (length r))) with (Z.of_nat (length r) + 1)%Z by lia.
  change ((Z.of_nat (length r) + 1)%Z # 1) with (inject_Z (Z.of_nat (length r) + 1)).
  change (Z.of_nat (length r) # 1) with (inject_Z (Z.of_nat (length r))).
  rewrite inject_Z_plus. ring.
Qed.

Lemma qsum_nonneg_ge {A} (f : A -> Q) (l : list A) (y : A) :
  (forall x, In x l -> 0 <= f x) -> In y l -> f y <= qsum (map f l).
Proof.
  induction l as [|x r IH]; intros H Hy; [destruct Hy|]. simpl.
  assert (Hr : 0 <= qsum (map f r)).
  { clear IH Hy. induction r as [|z r' IH']; simpl; [apply Qle_refl|].
    assert (0 <= f z) by (apply H; right; left; reflexivity).
    assert (0 <= qsum (map f r')).
    { apply IH'. intros w Hw. apply H. destruct Hw as [<-|Hw]; [left; reflexivity|].
      right; right; exact Hw. }
    lra. }
  destruct Hy as [<- | Hy].
  - lra.
  - pose proof (H x (or_introl eq_refl)).
    assert (f y <= qsum (map f r)) by (apply IH; [intros; apply H; right; assumption | exact Hy]).
    lra.
Qed.

Lemma Qsq_nonneg (y : Q) : 0 <= y * y.
Proof. nra. Qed.

Lemma Qsq_zero (y X : Q) : (y - X) * (y - X) <= 0 -> y == X.
Proof. intro. nra. Qed.

Lemma two_distinct_length (xs : list Q) (x1 x2 : Q) :
  In x1 xs -> In x2 xs -> ~ x1 == x2 -> (2 <= length xs)%nat.
Proof.
  destruct xs as [|y [|z r]]; simpl; intros H1 H2 Hn.
  - destruct H1.
  - destruct H1 as [<-|[]]; destruct H2 as [<-|[]]. exfalso. apply Hn. reflexivity.
  - lia.
Qed.

Lemma den_nonzero (xs : list Q) (X x1 x2 : Q) :
  In x1 xs -> In x2 xs -> ~ x1 == x2 -> ~ qsum (map (fun x => (x - X) * (x - X)) xs) == 0.
Proof.
  intros H1 H2 Hn HD0.
  assert (Hsq : forall x, In x xs -> 0 <= (fun x => (x - X) * (x - X)) x)
    by (intros x _; cbv beta; apply Qsq_nonneg).
  pose proof (qsum_nonneg_ge _ _ x1 Hsq H1) as G1.
  pose proof (qsum_nonneg_ge _ _ x2 Hsq H2) as G2. cbv beta in G1, G2.
  rewrite HD0 in G1, G2.
  assert (E1 : x1 == X) by (apply Qsq_zero; exact G1).
  assert (E2 : x2 == X) by (apply Qsq_zero; exact G2).
  apply Hn. rewrite E1, E2. reflexivity.
Qed.

Lemma regressionSlope_not_null (xs : list Q) (ys : list num) (x1 x2 : Q) :
  In x1 xs -> In x2 xs -> ~ x1 == x2 -> length ys = length xs ->
  regressionSlope (map lit xs) ys <> None.
Proof.
  intros H1 H2 Hn Hys. pose proof (two_distinct_length xs x1 x2 H1 H2 Hn) as Hlen.
  unfold regressionSlope. rewrite !length_map, Hys, Nat.eqb_refl.
  replace (Nat.ltb (length xs) 2) with false by (symmetry; apply Nat.ltb_ge; exact Hlen).
  cbv beta iota zeta.
  set (n := Z.of_nat (length xs) # 1).
  assert (Hn0 : Qeq_bool n 0 = false) by (apply length_pos_nonzero, Nat.ltb_lt; lia).
  destruct (sum_lit (fun x => x) xs) as (Sx & HSx & _).
  change (map lit xs) with (map (fun x => lit x) xs). rewrite HSx.
  assert (EX : div (Some Sx) (lit n) = Some (Sx / n)) by (unfold div, lit; rewrite Hn0; reflexivity).
  rewrite EX. set (X := Sx / n). rewrite map_map.
  assert (ED : map (fun x : Q => mul (sub (lit x) (Some X)) (sub (lit x) (Some X))) xs
               = map (fun x => lit ((x - X) * (x - X))) xs) by reflexivity.
  rewrite ED. change (negb true || false) with false. cbv iota.
  destruct (sum_lit (fun x => (x - X) * (x - X)) xs) as (D & HD & HDq). rewrite HD.
  assert (HDpos : ~ D == 0) by (rewrite HDq; exact (den_nonzero xs X x1 x2 H1 H2 Hn)).
  unfold strict_eq, lit. rewrite (Qeq_bool_nz D HDpos). discriminate.
Qed.

(** X1: on points lying exactly on a line [y = a + b x] with at least two distinct x values, [regressionSlope] returns a number, and that number is the line's slope [b]. *)
Theorem regressionSlope_linear (xs : list Q) (a b x1 x2 : Q) :
  In x1 xs -> In x2 xs -> ~ x1 == x2 ->
  exists s, regressionSlope (map lit xs) (map (fun x => lit (a + b * x)) xs) = Some (Some s)
            /\ s == b.
Proof.
  intros H1 H2 Hn. pose proof (two_distinct_length xs x1 x2 H1 H2 Hn) as Hlen.
  unfold regressionSlope. rewrite !length_map, Nat.eqb_refl.
  replace (Nat.ltb (length xs) 2) with false by (symmetry; apply Nat.ltb_ge; exact Hlen).
  cbv beta iota zeta.
  set (n := Z.of_nat (length xs) # 1).
  assert (Hn0 : Qeq_bool n 0 = false) by (apply length_pos_nonzero, Nat.ltb_lt; lia).
  assert (Hnq : ~ n == 0) by (intro E; apply Qeq_bool_iff in E; congruence).
  destruct (sum_lit (fun x => x) xs) as (Sx & HSx & HSxq). rewrite map_id in HSxq.
  change (map lit xs) with (map (fun x => lit x) xs). rewrite HSx.
  destruct (sum_lit (fun x => a + b * x) xs) as (Sy & HSy & HSyq). rewrite HSy.
  assert (EX : div (Some Sx) (lit n) = Some (Sx / n)) by (unfold div, lit; rewrite Hn0; reflexivity).
  assert (EY : div (Some Sy) (lit n) = Some (Sy / n)) by (unfold div, lit; rewrite Hn0; reflexivity).
  rewrite EX, EY.
  set (X := Sx / n). set (Y := Sy / n).
  assert (HY : Y == a + b * X).
  { subst X Y. rewrite HSyq, qsum_map_plus, qsum_const, qsum_map_scale, HSxq.
    rewrite map_id. fold n. field. exact Hnq. }
  rewrite combine_map_same, !map_map.
  change (negb true || false) with false. cbv iota.
  assert (EN : map (fun x : Q => mul (sub (fst (lit x, lit (a + b * x))) (Some X))
                                     (sub (snd (lit x, lit (a + b * x))) (Some Y))) xs
               = map (fun x => lit ((x - X) * (a + b * x - Y))) xs) by reflexivity.
  assert (ED : map (fun x : Q => mul (sub (lit x) (Some X)) (sub (lit x) (Some X))) xs
               = map (fun x => lit ((x - X) * (x - X))) xs) by reflexivity.
  rewrite EN, ED.
  destruct (sum_lit (fun x => (x - X) * (a + b * x - Y)) xs) as (N & HN & HNq). rewrite HN.
  destruct (sum_lit (fun x => (x - X) * (x - X)) xs) as (D & HD & HDq). rewrite HD.
  assert (HDpos : ~ D == 0) by (rewrite HDq; exact (den_nonzero xs X x1 x2 H1 H2 Hn)).
  unfold strict_eq, lit. rewrite (Qeq_bool_nz D HDpos). simpl.
  rewrite (Qeq_bool_nz D HDpos). eexists. split; [reflexivity|].
  rewrite HNq.
  assert (E : qsum (map (fun x => (x - X) * (a + b * x - Y)) xs) ==
              b * qsum (map (fun x => (x - X) * (x - X)) xs)).
  { rewrite <- qsum_map_scale. apply qsum_map_ext. intros x _. rewrite HY. ring. }
  rewrite E, <- HDq. field. exact HDpos.
Qed.

Lemma indices_not_null (n : nat) (ys : list num) :
  (2 <= n)%nat -> length ys = n -> regressionSlope (indices n) ys <> None.
Proof.
  intros Hn Hys. unfold indices.
  rewrite <- (map_map (fun i => Z.of_nat i # 1) lit).
  apply (regressionSlope_not_null _ _ (0 # 1) (1 # 1)).
  - apply (in_map (fun i => Z.of_nat i # 1) _ 0%nat). apply in_seq. lia.
  - apply (in_map (fun i => Z.of_nat i # 1) _ 1%nat). apply in_seq. lia.
  - unfold Qeq. simpl. lia.
  - rewrite !length_map, length_seq. exact Hys.
Qed.

(** X2: [tvlSlope] and [volumeSlope] are non-null exactly when the pool takes the history branch and has at least two valid days. *)
Theorem pool_slopes_null (p : Pool) :
  (pool_tvlSlope p <> None <->
     has_history p = true /\ (2 <= length (filter isValidDay (poolDayData p)))%nat) /\
  (pool_volumeSlope p <> None <->
     has_history p = true /\ (2 <= length (filter isValidDay (poolDayData p)))%nat).
Proof.
  unfold pool_tvlSlope, pool_volumeSlope.
  destruct (has_history p); [|split; split; [intro H; exfalso; apply H; reflexivity | intros [H _]; discriminate
                                             | intro H; exfalso; apply H; reflexivity | intros [H _]; discriminate]].
  cbv zeta. set (vd := filter isValidDay (poolDayData p)).
  destruct (Nat.ltb 1 (length vd)) eqn:E.
  - apply Nat.ltb_lt in E.
    split; split; intros; try (split; [reflexivity | lia]);
      apply indices_not_null; try lia; apply length_map.
  - apply Nat.ltb_ge in E.
    split; split; [intro H; exfalso; apply H; reflexivity | intros [_ H]; lia | intro H; exfalso; apply H; reflexivity | intros [_ H]; lia].
Qed.

Lemma last_in {A} (d : A) (r : list A) : In (last (d :: r) d) (d :: r).
Proof.
  revert d. induction r as [|y r IH]; intro d; [left; reflexivity|].
  change (last (d :: y :: r) d) with (last (y :: r) d).
  right. destruct r as [|z r']; [left; reflexivity|].
  specialize (IH y). change (last (y :: z :: r') y) with (last (z :: r') y) in IH.
  change (last (y :: z :: r') d) with (last (z :: r') d).
  assert (E : forall e e' (l : list A), l <> [] -> last l e = last l e').
  { intros e e' l Hl. induction l as [|u l IHl]; [congruence|].
    destruct l as [|v l']; [reflexivity|]. apply IHl. discriminate. }
  rewrite (E d y); [exact IH | discriminate].
Qed.

Lemma valid_tvl (d : DailySnapshot) :
  isValidDay d = true -> exists t, tvlUSD d = Some t /\ 0 < t.
Proof. intro H. destruct (isValidDay_spec d H) as (f & t & _ & Et & Ht). exists t. auto. Qed.

(** X3: [tvlTrend] is non-null exactly when the pool takes the history branch and has at least two valid days; it is then a number above -100. *)
Theorem pool_tvlTrend_spec (p : Pool) :
  (pool_tvlTrend p <> None <->
     has_history p = true /\ (2 <= length (filter isValidDay (poolDayData p)))%nat) /\
  (forall v, pool_tvlTrend p = Some v -> exists q, v = Some q /\ -100 < q).
Proof.
  unfold pool_tvlTrend.
  destruct (has_history p); [|split; [split; [intro H; exfalso; apply H; reflexivity | intros [H _]; discriminate] | discriminate]].
  assert (Hall : forall d, In d (filter isValidDay (poolDayData p)) -> isValidDay d = true)
    by (intros d Hd; apply filter_In in Hd; apply Hd).
  destruct (filter isValidDay (poolDayData p)) as [|d0 r] eqn:Evd.
  { split; [split; [intro H; exfalso; apply H; reflexivity | intros [_ H]; simpl in H; lia] | discriminate]. }
  destruct r as [|y r'].
  { cbn. split; [split; [intro H; exfalso; apply H; reflexivity | intros [_ H]; simpl in H; lia] | discriminate]. }
  change (Nat.ltb 1 (length (d0 :: y :: r'))) with true. cbv iota.
  destruct (valid_tvl _ (Hall _ (last_in d0 (y :: r')))) as (s & Es & Hs).
  destruct (valid_tvl _ (Hall _ (or_introl eq_refl))) as (e & Ee & He).
  rewrite Es, Ee. unfold gt, lt, lit.
  replace (qltb 0 s) with true by (symmetry; apply qltb_true; exact Hs).
  unfold div, sub, mul, lift2. rewrite (Qeq_bool_pos s Hs).
  split; [split; [intros _; split; [reflexivity | simpl; lia] | discriminate]|].
  intros v Hv. injection Hv as <-. eexists. split; [reflexivity|].
  assert (0 < e / s) by (apply Qlt_shift_div_l; [exact Hs | lra]).
  assert (E2 : (e - s) / s * 100 == e / s * 100 - 100) by (field; intro; lra).
  rewrite E2. lra.
Qed.

Section InsertionSort.

Context {A : Type} (key : A -> num) (ins : A -> list A -> list A).
Hypothesis ins_nil : forall x, ins x [] = [x].
Hypothesis ins_cons : forall x y r,
  ins x (y :: r) = if gt (sub (key x) (key y)) (lit 0) then x :: y :: r else y :: ins x r.

Lemma ins_hd (x y : A) (l : list A) :
  HdRel (desc_by key) y l -> desc_by key y x -> HdRel (desc_by key) y (ins x l).
Proof.
  intros Hh Hyx. destruct l as [|z r].
  - rewrite ins_nil. constructor. exact Hyx.
  - rewrite ins_cons. destruct (gt _ _); constructor; [exact Hyx|].
    inversion Hh; assumption.
Qed.

Lemma ins_sorted (x : A) (l : list A) :
  (exists q, key x = Some q) -> Forall (fun y => exists q, key y = Some q) l ->
  Sorted (desc_by key) l -> Sorted (desc_by key) (ins x l).
Proof.
  intros [kx Hx]. induction l as [|y r IH]; intros Hf Hs.
  - rewrite ins_nil. repeat constructor.
  - inversion Hf as [|? ? [ky Hy] Hfr]; subst.
    apply Sorted_inv in Hs as [Hsr Hhd].
    rewrite ins_cons. rewrite Hx, Hy. unfold gt, lt, sub, lift2, lit.
    destruct (qltb 0 (kx - ky)) eqn:E.
    + apply qltb_true in E. constructor; [constructor; assumption|].
      constructor. exists kx, ky. repeat split; [exact Hx | exact Hy | lra].
    + constructor; [exact (IH Hfr Hsr)|]. apply ins_hd; [exact Hhd|].
      exists ky, kx. repeat split; [exact Hy | exact Hx|].
      apply Qnot_lt_le. intro Hlt.
      assert (Hlt' : qltb 0 (kx - ky) = true) by (apply qltb_true; lra). congruence.
Qed.

Lemma ins_perm (x : A) (l : list A) : Permutation (ins x l) (x :: l).
Proof.
  induction l as [|y r IH]; [rewrite ins_nil; reflexivity|].
  rewrite ins_cons. destruct (gt _ _); [reflexivity|].
  rewrite IH. apply perm_swap.
Qed.

Lemma fold_ins_sorted (l acc : list A) :
  Forall (fun y => exists q, key y = Some q) l ->
  Forall (fun y => exists q, key y = Some q) acc -> Sorted (desc_by key) acc ->
  Sorted (desc_by key) (fold_left (fun acc x => ins x acc) l acc).
Proof.
  revert acc. induction l as [|x r IH]; intros acc Hl Ha Hs; [exact Hs|].
  inversion Hl as [|? ? Hx Hr]; subst. simpl. apply IH; [exact Hr| |].
  - apply (Permutation_Forall (Permutation_sym (ins_perm x acc))). constructor; assumption.
  - apply ins_sorted; assumption.
Qed.

Lemma sort_sorted (l : list A) :
  Forall (fun y => exists q, key y = Some q) l ->
  Sorted (desc_by key) (fold_left (fun acc x => ins x acc) l []).
Proof. intro H. apply fold_ins_sorted; [exact H | constructor | constructor]. Qed.

End InsertionSort.

Lemma sort_by_score_sorted (l : list PoolWithAPR) :
  Forall (fun y => exists q, coalesce (score y) (lit 0) = Some q) l ->
  Sorted (desc_by (fun p => coalesce (score p) (lit 0))) (sort_by_score l).
Proof.
  apply (sort_sorted (fun p => coalesce (score p) (lit 0)) insert_by_score);
    intros; reflexivity.
Qed.

Lemma sort_by_priority_sorted (l : list RebalanceAction) :
  Forall (fun y => exists q, priority y = Some q) l ->
  Sorted (desc_by priority) (sort_by_priority l).
Proof. apply (sort_sorted priority insert_by_priority); intros; reflexivity. Qed.


Lemma sorted_firstn {A} (R : A -> A -> Prop) (n : nat) (l : list A) :
  Sorted R l -> Sorted R (firstn n l).
Proof.
  revert l. induction n as [|n IH]; intros l H; [constructor|].
  destruct l as [|x r]; [constructor|]. simpl.
  apply Sorted_inv in H as [Hr Hh]. constructor; [apply IH; exact Hr|].
  destruct n; [constructor|]. destruct r as [|y r']; [constructor|].
  simpl. constructor. inversion Hh; assumption.
Qed.

Lemma sorted_slice0 {A} (R : A -> A -> Prop) (l : list A) (n : Z) :
  Sorted R l -> Sorted R (slice0 l n).
Proof. intro H. unfold slice0. destruct (Z.leb 0 n); apply sorted_firstn; exact H. Qed.

Lemma analyze_position_shape (rangeCheck : PriceRange -> PriceRange -> num -> num -> bool)
    (currentPools : list PoolWithAPR) (strategy : option StrategyKey) (thr : num)
    (position : HeldPosition) (a : RebalanceAction) :
  analyze_position rangeCheck currentPools strategy thr position = Some a ->
  (exists q, priority a = Some q) /\ actionType a <> MAINTAIN /\
  actionType a <> ENTER_POSITION /\ act_poolId a = hp_poolId position.
Proof.
  intro H. unfold analyze_position in H.
  repeat (first [ discriminate H
                | progress cbn beta iota zeta in H
                | match type of H with context [match ?x with _ => _ end] =>
                    let T := type of x in
                    match T with
                    | bool => let Ex := fresh "Ex" in
                              destruct x eqn:Ex; try (vm_compute in Ex; discriminate Ex)
                    | option _ => destruct x end end ]).
  all: injection H as <-; cbn; split; [eexists; reflexivity | split; [discriminate | split; [discriminate | reflexivity]]].
Qed.

Lemma in_enter_loop (strategy : option StrategyKey) (avg bound : num) (i : nat)
    (cands : list PoolWithAPR) (a : RebalanceAction) :
  In a (enter_loop strategy avg bound i cands) ->
  exists pool, In pool cands /\
    a = {| actionType := ENTER_POSITION; act_poolId := id (base pool); currentSize := lit 0;
           targetSize := avg; sizeChangePercent := lit 100;
           reasonCodes := ["new_opportunity"%string]; priority := lit 5 |} /\
    apr pool <> None /\ (forall q, apr pool = Some (Some q) -> 5 <= q) /\
    (forall qc, correlation pool = Some (Some qc) ->
                correlationThreshold (riskProfile strategy) <= qc).
Proof.
  revert i. induction cands as [|pool r IH]; intros i H; [destruct H|].
  cbn [enter_loop] in H. destruct (lt _ bound); [|destruct H].
  apply in_app_or in H as [H | H].
  - exists pool. split; [left; reflexivity|]. unfold enter_action in H.
    destruct (apr pool) as [ap|] eqn:Ea; [|destruct H].
    destruct (lt ap (lit 5)) eqn:El; [destruct H|].
    assert (Hap : forall q, Some ap = Some (Some q) -> 5 <= q).
    { intros q Hq. injection Hq as ->. unfold lt, lit in El.
      apply Qnot_lt_le. intro Hlt. apply qltb_true in Hlt. congruence. }
    destruct (correlation pool) as [c|] eqn:Ec.
    + destruct (lt c (lit (correlationThreshold (riskProfile strategy)))) eqn:Ecl; [destruct H|].
      destruct H as [<- | []]. split; [reflexivity|]. split; [discriminate|]. split; [exact Hap|].
      intros qc Hqc. injection Hqc as ->. unfold lt, lit in Ecl.
      apply Qnot_lt_le. intro Hlt. apply qltb_true in Hlt. congruence.
    + destruct H as [<- | []]. split; [reflexivity|]. split; [discriminate|]. split; [exact Hap|].
      intros qc Hqc. discriminate.
  - destruct (IH _ H) as (p & Hp & Rest). exists p. split; [right; exact Hp | exact Rest].
Qed.

Lemma length_enter_action (strategy : option StrategyKey) (avg : num) (pool : PoolWithAPR) :
  (length (enter_action strategy avg pool) <= 1)%nat.
Proof.
  unfold enter_action. destruct (apr pool); [|simpl; lia].
  destruct (lt _ _); [simpl; lia|]. destruct (correlation pool); [destruct (lt _ _)|]; simpl; lia.
Qed.

Lemma length_enter_loop (strategy : option StrategyKey) (avg : num) (B : Q) (k : Z)
    (i : nat) (cands : list PoolWithAPR) :
  B <= inject_Z k ->
  (Z.of_nat (length (enter_loop strategy avg (Some B) i cands)) <= Z.max 0 (k - Z.of_nat i))%Z.
Proof.
  intro HB. revert i. induction cands as [|pool r IH]; intro i; cbn [enter_loop length]; [lia|].
  destruct (lt (lit (inject_Z (Z.of_nat i))) (Some B)) eqn:E; [|simpl; lia].
  unfold lt, lit in E. apply qltb_true in E.
  assert (Hik : (Z.of_nat i < k)%Z).
  { assert (E' : inject_Z (Z.of_nat i) < inject_Z k) by (eapply Qlt_le_trans; eassumption).
    rewrite <- Zlt_Qlt in E'. exact E'. }
  rewrite length_app. pose proof (length_enter_action strategy avg pool).
  specialize (IH (S i)). lia.
Qed.

Lemma length_step1 {A B} (f : A -> option B) (l : list A) :
  (length (flat_map (fun x => match f x with Some a => [a] | None => [] end) l) <= length l)%nat.
Proof. induction l as [|x r IH]; simpl; [lia|]. rewrite length_app. destruct (f x); simpl; lia. Qed.

Lemma length_sort_by_priority (l : list RebalanceAction) : length (sort_by_priority l) = length l.
Proof. apply Permutation_length, sort_by_priority_perm. Qed.

Lemma in_generate (rangeCheck : PriceRange -> PriceRange -> num -> num -> bool)
    (currentPools : list PoolWithAPR) (o : PositionRebalanceOptions) (a : RebalanceAction) :
  In a (generateRebalanceRecommendations rangeCheck currentPools o) ->
  (exists pos, In pos (currentPositions o) /\
     analyze_position rangeCheck currentPools (strategy o)
       (match minActionThreshold o with Some v => v | None => lit 10 end) pos = Some a) \/
  (gt (match availableLiquidity o with Some v => v | None => lit 0 end) (lit 0) = true /\
   exists cands avg bound,
     (forall c, In c cands -> In c currentPools /\
                ~ In (id (base c)) (map hp_poolId (currentPositions o))) /\
     In a (enter_loop (strategy o) avg bound 0 cands)).
Proof.
  unfold generateRebalanceRecommendations. cbv zeta. intro H.
  apply (Permutation_in _ (sort_by_priority_perm _)) in H.
  apply in_app_or in H as [H | H].
  - left. apply in_flat_map in H as (pos & Hpos & Ha). exists pos. split; [exact Hpos|].
    destruct (analyze_position _ _ _ _ pos); [destruct Ha as [<- | []]; reflexivity | destruct Ha].
  - right. match type of H with In _ (if ?c then _ else _) => destruct c eqn:Ec end;
      [|destruct H].
    apply andb_prop in Ec as [Eg _]. split; [exact Eg|].
    eexists _, _, _. split; [|exact H].
    intros c Hc. apply (Permutation_in _ (sort_by_score_perm _)) in Hc.
    apply filter_In in Hc as [Hin Hn]. split; [exact Hin|].
    apply negb_true_iff in Hn. intro Hm.
    assert (existsb (String.eqb (id (base c))) (map hp_poolId (currentPositions o)) = true)
      by (apply existsb_exists; exists (id (base c)); split; [exact Hm | apply String.eqb_refl]).
    congruence.
Qed.

(** Rebalance: sorted, no MAINTAIN. *)
(** X14: the recommendations of [generateRebalanceRecommendations] are in non-increasing priority order, and none of them is a MAINTAIN action. *)
Theorem rebalance_sorted_no_maintain
    (rangeCheck : PriceRange -> PriceRange -> num -> num -> bool)
    (currentPools : list PoolWithAPR) (options : PositionRebalanceOptions) :
  Sorted (desc_by priority) (generateRebalanceRecommendations rangeCheck currentPools options) /\
  (forall a, In a (generateRebalanceRecommendations rangeCheck currentPools options) ->
             actionType a <> MAINTAIN).
Proof.
  assert (Hall : forall a, In a (generateRebalanceRecommendations rangeCheck currentPools options) ->
                 (exists q, priority a = Some q) /\ actionType a <> MAINTAIN).
  { intros a Ha. apply in_generate in Ha as [(pos & _ & Hp) | (_ & cands & avg & bound & _ & Hin)].
    - apply analyze_position_shape in Hp as (Hq & Hm & _). split; assumption.
    - apply in_enter_loop in Hin as (pool & _ & -> & _).
      split; [eexists; reflexivity | discriminate]. }
  split; [|intros a Ha; apply Hall; exact Ha].
  unfold generateRebalanceRecommendations at 1. cbv zeta.
  apply sort_by_priority_sorted. apply Forall_forall. intros a Ha.
  apply Hall. unfold generateRebalanceRecommendations. cbv zeta.
  apply (Permutation_in _ (Permutation_sym (sort_by_priority_perm _))). exact Ha.
Qed.

Lemma pools_get_none (currentPools : list PoolWithAPR) (key : string) :
  (forall pool, In pool currentPools -> id (base pool) <> key) -> pools_get currentPools key = None.
Proof.
  unfold pools_get.
  assert (G : forall l (acc : option PoolWithAPR), (forall pool, In pool l -> id (base pool) <> key) ->
     fold_left (fun m pool => if String.eqb (id (base pool)) key then Some pool else m) l acc = acc).
  { induction l as [|p r IH]; intros acc H; [reflexivity|]. simpl.
    destruct (String.eqb (id (base p)) key) eqn:E.
    - apply String.eqb_eq in E. exfalso. exact (H p (or_introl eq_refl) E).
    - apply IH. intros q Hq. apply H. right. exact Hq. }
  intro H. apply G. exact H.
Qed.

(** Missing pool: EXIT. *)
(** X15: a held position whose pool is absent from the current pools gets an EXIT action with target 0, size change -100%, reason [pool_tvl_decline] and priority 9. *)
Theorem rebalance_missing_pool_exit
    (rangeCheck : PriceRange -> PriceRange -> num -> num -> bool)
    (currentPools : list PoolWithAPR) (options : PositionRebalanceOptions) (pos : HeldPosition) :
  In pos (currentPositions options) ->
  (forall pool, In pool currentPools -> id (base pool) <> hp_poolId pos) ->
  In {| actionType := EXIT_POSITION; act_poolId := hp_poolId pos; currentSize := size pos;
        targetSize := lit 0; sizeChangePercent := lit (-100);
        reasonCodes := ["pool_tvl_decline"%string]; priority := lit 9 |}
     (generateRebalanceRecommendations rangeCheck currentPools options).
Proof.
  intros Hin Hmiss. unfold generateRebalanceRecommendations. cbv zeta.
  apply (Permutation_in _ (Permutation_sym (sort_by_priority_perm _))).
  apply in_or_app. left. apply in_flat_map. exists pos. split; [exact Hin|].
  unfold analyze_position. rewrite (pools_get_none _ _ Hmiss). left. reflexivity.
Qed.

(** ENTER actions. *)
(** X16: every ENTER action recommends a pool that is not held, from the current pools, with a non-null APR of at least 5% (or NaN) and a correlation at least the strategy threshold (or NaN); it starts from size 0, has priority 5, and only occurs when the available liquidity is positive. *)
Theorem rebalance_enter_actions
    (rangeCheck : PriceRange -> PriceRange -> num -> num -> bool)
    (currentPools : list PoolWithAPR) (options : PositionRebalanceOptions) (a : RebalanceAction) :
  In a (generateRebalanceRecommendations rangeCheck currentPools options) ->
  actionType a = ENTER_POSITION ->
  (exists q, availableLiquidity options = Some (Some q) /\ 0 < q) /\
  ~ In (act_poolId a) (map hp_poolId (currentPositions options)) /\
  currentSize a = lit 0 /\ priority a = lit 5 /\
  exists pool, In pool currentPools /\ id (base pool) = act_poolId a /\
    apr pool <> None /\ (forall q, apr pool = Some (Some q) -> 5 <= q) /\
    (forall qc, correlation pool = Some (Some qc) ->
                correlationThreshold (riskProfile (strategy options)) <= qc).
Proof.
  intros Ha He. apply in_generate in Ha as [(pos & _ & Hp) | (Hg & cands & avg & bound & Hc & Hin)].
  - apply analyze_position_shape in Hp as (_ & _ & Hne & _). contradiction.
  - apply in_enter_loop in Hin as (pool & Hpool & -> & Hap & Hap5 & Hcor).
    destruct (Hc pool Hpool) as [Hin Hnot]. split.
    + destruct (availableLiquidity options) as [[q|]|]; try discriminate.
      exists q. split; [reflexivity|]. apply qltb_true. exact Hg.
    + split; [exact Hnot|]. split; [reflexivity|]. split; [reflexivity|].
      exists pool. repeat split; assumption.
Qed.

(** Action count. *)
(** X17: with a numeric [maxPositions] m, the number of recommendations is at most the larger of the number of held positions and m. *)
Theorem rebalance_action_count
    (rangeCheck : PriceRange -> PriceRange -> num -> num -> bool)
    (currentPools : list PoolWithAPR) (options : PositionRebalanceOptions) (m : Z) :
  maxPositions options = Some (lit (inject_Z m)) ->
  (Z.of_nat (length (generateRebalanceRecommendations rangeCheck currentPools options))
     <= Z.max (Z.of_nat (length (currentPositions options))) m)%Z.
Proof.
  intro Hm. unfold generateRebalanceRecommendations. cbv zeta.
  rewrite length_sort_by_priority, length_app.
  pose proof (length_step1 (analyze_position rangeCheck currentPools (strategy options)
               (match minActionThreshold options with Some v => v | None => lit 10 end))
               (currentPositions options)) as H1.
  rewrite Hm. set (n := length (currentPositions options)).
  match goal with |- context [if ?c then _ else _] => destruct c eqn:Ec end; [|simpl; lia].
  cbv iota. apply andb_prop in Ec as [_ Elt]. unfold lt, lit in Elt. apply qltb_true in Elt.
  assert (Hnm : (Z.of_nat n < m)%Z) by (rewrite Zlt_Qlt; exact Elt).
  unfold min2, sub, lift2, lit.
  match goal with |- context [enter_loop ?s ?avg (Some ?B) 0 ?c] =>
    assert (HB : B <= inject_Z (m - Z.of_nat n));
    [| pose proof (length_enter_loop s avg B (m - Z.of_nat n) 0 c HB) as H2] end.
  { eapply Qle_trans; [apply Q.le_min_l|].
    replace (m - Z.of_nat n)%Z with (m + - Z.of_nat n)%Z by lia.
    rewrite inject_Z_plus, inject_Z_opp. apply Qle_refl. }
  simpl Z.of_nat in H2. fold n in H1. unfold lit in H1. lia.
Qed.

Lemma qltb_false (a b : Q) : b <= a -> qltb a b = false.
Proof. intro H. unfold qltb. apply Qle_bool_iff in H. rewrite H. reflexivity. Qed.

Lemma centred_range_no_adjustment (c w thr : Q) :
  ~ c == 0 -> ~ w == 0 -> 0 <= thr ->
  let r := {| lowerPrice := Some (c * (1 - w)); upperPrice := Some (c * (1 + w)) |} in
  needsRangeAdjustment r r (Some c) (Some thr) = false.
Proof.
  intros Hc Hw Ht r. unfold needsRangeAdjustment, r. cbn [lowerPrice upperPrice].
  cbv zeta. unfold sub, mul, div, abs, gt, lt, lift2, lit, option_map.
  assert (Hwd : ~ c * (1 + w) - c * (1 - w) == 0).
  { intro E. apply Hc.
    assert (E2 : 2 * (c * w) == 0) by (rewrite <- E; ring).
    apply Qmult_integral in E2 as [E2 | E2]; [discriminate E2|].
    apply Qmult_integral in E2 as [E2 | E2]; [exact E2 | contradiction]. }
  rewrite (Qeq_bool_nz _ Hwd).
  assert (Z3 : Qabs ((c * (1 + w) - c * (1 - w) - (c * (1 + w) - c * (1 - w))) /
                     (c * (1 + w) - c * (1 - w)) * 100) == 0)
    by (rewrite Qabs_pos; [field; repeat split; assumption | apply Qle_lteq; right; field; repeat split; assumption]).
  assert (P1 : (c - c * (1 - w)) / (c * (1 + w) - c * (1 - w)) == 1 # 2)
    by (field; repeat split; assumption).
  assert (P2 : (c * (1 + w) - c) / (c * (1 + w) - c * (1 - w)) == 1 # 2)
    by (field; repeat split; assumption).
  assert (Zl : ~ c * (1 - w) == 0 ->
               Qabs ((c * (1 - w) - c * (1 - w)) / (c * (1 - w)) * 100) == 0).
  { intro Hl. assert (Hl1 : ~ 1 - w == 0) by (intro E; apply Hl; rewrite E; ring).
    rewrite Qabs_pos; [field; repeat split; assumption | apply Qle_lteq; right; field; repeat split; assumption]. }
  assert (Zu : ~ c * (1 + w) == 0 ->
               Qabs ((c * (1 + w) - c * (1 + w)) / (c * (1 + w)) * 100) == 0).
  { intro Hu. assert (Hu1 : ~ 1 + w == 0) by (intro E; apply Hu; rewrite E; ring).
    rewrite Qabs_pos; [field; repeat split; assumption | apply Qle_lteq; right; field; repeat split; assumption]. }
  destruct (Qeq_bool (c * (1 - w)) 0) eqn:El;
    [| assert (Hl : ~ c * (1 - w) == 0) by (intro E; apply Qeq_bool_iff in E; congruence);
       specialize (Zl Hl)];
  (destruct (Qeq_bool (c * (1 + w)) 0) eqn:Eu;
    [| assert (Hu : ~ c * (1 + w) == 0) by (intro E; apply Qeq_bool_iff in E; congruence);
       specialize (Zu Hu)]);
  rewrite !qltb_false; try reflexivity;
    first [ rewrite P2; unfold Qle; simpl; lia | rewrite P1; unfold Qle; simpl; lia
          | rewrite Z3; exact Ht | rewrite Zl; exact Ht | rewrite Zu; exact Ht ].
Qed.

Lemma optimal_range_shape (pool : PoolWithAPR) (c : Q) (strategy : option StrategyKey) :
  exists w, calculateOptimalPriceRange pool (lit c) strategy =
            {| lowerPrice := Some (c * (1 - w)); upperPrice := Some (c * (1 + w)) |} /\
            ~ w == 0 /\
            ((forall s, aprStdDev pool = Some (Some s) -> 0 <= s) -> 0 < w).
Proof.
  unfold calculateOptimalPriceRange. cbv zeta.
  assert (Hm : 0 < widthMultiplier (riskProfile strategy))
    by (destruct (riskProfile strategy); unfold widthMultiplier, Qlt; simpl; lia).
  destruct (aprStdDev pool) as [[s|]|] eqn:Es.
  - unfold truthy. destruct (Qeq_bool s 0) eqn:Ez; cbn [negb].
    + eexists. split; [reflexivity|]. split.
      * intro E. assert (E' : 5 # 100 == 0 \/ widthMultiplier (riskProfile strategy) == 0)
          by (apply Qmult_integral; exact E).
        destruct E' as [E' | E']; [discriminate E' | rewrite E' in Hm; discriminate Hm].
      * intros _. apply Qmult_lt_0_compat; [reflexivity | exact Hm].
    + assert (Hs : ~ s == 0) by (intro E; apply Qeq_bool_iff in E; congruence).
      unfold div, lit. change (Qeq_bool 100 0) with false. cbv iota.
      eexists. split; [reflexivity|]. split.
      * intro E. apply Qmult_integral in E as [E | E].
        -- apply Hs. assert (E2 : s == s / 100 * 100) by field. rewrite E2, E. reflexivity.
        -- rewrite E in Hm. discriminate Hm.
      * intro H. specialize (H s eq_refl).
        apply Qmult_lt_0_compat; [|exact Hm].
        apply Qlt_shift_div_l; [reflexivity|].
        assert (0 < s \/ s == 0) as [Hp | Hz] by (apply Qle_lt_or_eq in H; destruct H; [left | right]; [assumption | symmetry; assumption]).
        -- lra.
        -- contradiction.
  - eexists. split; [reflexivity|]. split.
    + intro E. apply Qmult_integral in E as [E | E]; [discriminate E | rewrite E in Hm; discriminate Hm].
    + intros _. apply Qmult_lt_0_compat; [reflexivity | exact Hm].
  - eexists. split; [reflexivity|]. split.
    + intro E. apply Qmult_integral in E as [E | E]; [discriminate E | rewrite E in Hm; discriminate Hm].
    + intros _. apply Qmult_lt_0_compat; [reflexivity | exact Hm].
Qed.

(** X11: [calculateOptimalPriceRange] returns a numeric range centred on the current price, for any price and any APR standard deviation; in addition, for a non-negative price and a non-negative (or absent) APR standard deviation the price lies inside it. *)
Theorem optimal_range_centred (pool : PoolWithAPR) (c : Q) (strategy : option StrategyKey) :
  exists l u, lowerPrice (calculateOptimalPriceRange pool (lit c) strategy) = Some l /\
              upperPrice (calculateOptimalPriceRange pool (lit c) strategy) = Some u /\
              l + u == 2 * c /\
              ((forall s, aprStdDev pool = Some (Some s) -> 0 <= s) -> 0 <= c -> l <= c /\ c <= u).
Proof.
  destruct (optimal_range_shape pool c strategy) as (w & -> & _ & Hw).
  exists (c * (1 - w)), (c * (1 + w)). cbn.
  split; [reflexivity|]. split; [reflexivity|]. split; [ring|].
  intros Hs Hc. specialize (Hw Hs). split; nra.
Qed.

(** X12: a position whose range is the optimal range for the current (non-zero) price never needs a range adjustment against that same optimal range, for any non-negative threshold; this includes ranges whose lower price is 0. *)
Theorem optimal_range_no_adjustment (pool : PoolWithAPR) (c thr : Q) (strategy : option StrategyKey) :
  ~ c == 0 -> 0 <= thr ->
  needsRangeAdjustment (calculateOptimalPriceRange pool (lit c) strategy)
                       (calculateOptimalPriceRange pool (lit c) strategy) (lit c) (lit thr) = false.
Proof.
  intros Hc Ht. destruct (optimal_range_shape pool c strategy) as (w & E & Hw & _).
  rewrite E. apply (centred_range_no_adjustment c w thr Hc Hw Ht).
Qed.

(** X4: the latest-day APR, when it is computed, is a number and is non-negative. *)
Theorem latest_apr_nonneg (p : Pool) (v : num) :
  latest_apr p = Some v -> exists q, v = Some q /\ 0 <= q.
Proof.
  unfold latest_apr, has_history.
  destruct (Nat.ltb 0 (length (poolDayData p))); cbn [andb]; [|discriminate].
  destruct (totalValueLockedUSD p) as [t|] eqn:Et; [|discriminate].
  destruct (gt (Some t) (lit 0)) eqn:Gt; [|discriminate].
  destruct (poolDayData p) as [|d0 r]; [discriminate|].
  destruct (feesUSD d0) as [f|]; [|discriminate].
  destruct (ge (Some f) (lit 0)) eqn:Ge; cbn [isNaN negb andb]; [|discriminate].
  intro E. injection E as <-.
  unfold gt, ge, lt, le, lit, qltb in Gt, Ge. cbn in Gt, Ge.
  apply negb_true_iff in Gt. apply Qle_bool_imp_le in Ge.
  assert (Ht : 0 < t) by (apply Qnot_le_lt; intro H; apply Qle_bool_iff in H; congruence).
  unfold div, mul, lift2, lit.
  destruct (Qeq_bool t 0) eqn:Ez.
  - apply Qeq_bool_iff in Ez. rewrite Ez in Ht. discriminate Ht.
  - eexists. split; [reflexivity|].
    apply Qmult_le_0_compat; [apply Qmult_le_0_compat|]; try discriminate.
    apply Qle_shift_div_l; [exact Ht|]. rewrite Qmult_0_l. exact Ge.
Qed.

(** X5: with the default bounds [minTokenCorrelation = 0] and [maxTokenCorrelation = 1], [meetsCorrelationCriteria] accepts every pool. *)
Theorem correlation_default_range (p : Pool) (o : CorrelationOptions) :
  meetsCorrelationCriteria p (lit 0) (lit 1) o = true.
Proof.
  unfold meetsCorrelationCriteria, calculateTokenCorrelation. cbv zeta.
  destruct (lookup_flag STABLE_TOKENS (toLowerCase (token0 p)));
  destruct (lookup_flag STABLE_TOKENS (toLowerCase (token1 p)));
  destruct (lookup_flag MAJOR_TOKENS (toLowerCase (token0 p)));
  destruct (lookup_flag MAJOR_TOKENS (toLowerCase (token1 p)));
  destruct (preferStableCorrelation o); destruct (preferStableBase o);
  destruct (avoidExoticPairs o); vm_compute; reflexivity.
Qed.

(** X6: [calculateTokenCorrelation] does not depend on the order of the two tokens. *)
Theorem correlation_swap_tokens (p : Pool) (o : CorrelationOptions) :
  calculateTokenCorrelation (swap_tokens p) o = calculateTokenCorrelation p o.
Proof.
  unfold calculateTokenCorrelation, swap_tokens. cbn [token0 token1].
  destruct (lookup_flag STABLE_TOKENS (toLowerCase (token0 p)));
  destruct (lookup_flag STABLE_TOKENS (toLowerCase (token1 p)));
  destruct (lookup_flag MAJOR_TOKENS (toLowerCase (token0 p)));
  destruct (lookup_flag MAJOR_TOKENS (toLowerCase (token1 p))); reflexivity.
Qed.

(** X7: when the scores of the pools passing the filter are numbers, [getBestPoolsWithScore] returns pools in non-increasing score order, at most [topN] of them, each one a fetched pool that passed the filter, with its APR fields kept and its token correlation attached. *)
Theorem best_pools_ranked (o : BestPoolsOptions) (now : Q) (pools : list PoolWithAPR) :
  (forall p, In p pools -> pool_filter o now p = true ->
     exists q, score (score_pool o (bounds_of o pools) p) = Some (Some q)) ->
  Sorted (desc_by (fun p => coalesce (score p) (lit 0))) (getBestPoolsWithScore o now pools) /\
  ((0 <= topN o)%Z -> (Z.of_nat (length (getBestPoolsWithScore o now pools)) <= topN o)%Z) /\
  (forall r, In r (getBestPoolsWithScore o now pools) ->
     exists p, In p pools /\ pool_filter o now p = true /\ base r = base p /\
               apr r = apr p /\ aprStdDev r = aprStdDev p /\
               correlation r = Some (calculateTokenCorrelation (base p) (corrOpts o))).
Proof.
  intro Hnum. split; [|split].
  - unfold getBestPoolsWithScore. destruct pools as [|p0 r] eqn:Ep; [constructor|].
    rewrite <- Ep in *. cbv zeta.
    apply sorted_slice0, sort_by_score_sorted. apply Forall_forall.
    intros x Hx. apply in_map_iff in Hx as (p & <- & Hp). apply filter_In in Hp as [Hin Hf].
    destruct (Hnum p Hin Hf) as [q Hq]. exists q. rewrite Hq. reflexivity.
  - intro Hn. unfold getBestPoolsWithScore. destruct pools as [|p0 r]; [cbn; lia|].
    cbv zeta. unfold slice0. replace (Z.leb 0 (topN o)) with true by (symmetry; apply Z.leb_le; exact Hn).
    rewrite length_firstn. lia.
  - intros r Hr. destruct (in_getBestPoolsWithScore o now pools r Hr) as (p & Hp & Hf & ->).
    exists p. repeat split; assumption.
Qed.





Lemma length_first_pass (M : num) (ps : list Position) (rp : num) (rn : Z) :
  length (fst (fst (first_pass M ps rp rn))) = length ps.
Proof.
  revert rp rn. induction ps as [|x r IH]; intros rp rn; [reflexivity|].
  cbn [first_pass]. destruct (gt (percentage x) M).
  - specialize (IH (sub rp M) (rn - 1)%Z).
    destruct (first_pass M r (sub rp M) (rn - 1)) as [[r' a] b]. cbn in *. lia.
  - specialize (IH (sub rp (percentage x)) rn).
    destruct (first_pass M r (sub rp (percentage x)) rn) as [[r' a] b]. cbn in *. lia.
Qed.

Lemma length_cap_and_redistribute (M : num) (ps : list Position) :
  length (cap_and_redistribute M ps) = length ps.
Proof.
  unfold cap_and_redistribute.
  pose proof (length_first_pass M ps (lit 100) (Z.of_nat (length ps))) as H.
  destruct (first_pass M ps (lit 100) (Z.of_nat (length ps))) as [[ps1 rp] rn].
  cbn in H. unfold second_pass. destruct (_ && _); [rewrite length_map|]; exact H.
Qed.

Lemma length_weigh_positions (cf : Q) (tc i : nat) (ps : list PoolWithAPR) :
  length (weigh_positions cf tc i ps) = length ps.
Proof. revert i. induction ps as [|p r IH]; intro i; cbn; [reflexivity | rewrite IH; reflexivity]. Qed.

Lemma ids_first_pass (M : num) (ps : list Position) (rp : num) (rn : Z) :
  map poolId (fst (fst (first_pass M ps rp rn))) = map poolId ps.
Proof.
  revert rp rn. induction ps as [|x r IH]; intros rp rn; [reflexivity|].
  cbn [first_pass]. destruct (gt (percentage x) M).
  - specialize (IH (sub rp M) (rn - 1)%Z).
    destruct (first_pass M r (sub rp M) (rn - 1)) as [[r' a] b]. cbn in *. rewrite IH. reflexivity.
  - specialize (IH (sub rp (percentage x)) rn).
    destruct (first_pass M r (sub rp (percentage x)) rn) as [[r' a] b]. cbn in *. rewrite IH. reflexivity.
Qed.

Lemma ids_cap_and_redistribute (M : num) (ps : list Position) :
  map poolId (cap_and_redistribute M ps) = map poolId ps.
Proof.
  unfold cap_and_redistribute.
  pose proof (ids_first_pass M ps (lit 100) (Z.of_nat (length ps))) as H.
  destruct (first_pass M ps (lit 100) (Z.of_nat (length ps))) as [[ps1 rp] rn].
  cbn in H. unfold second_pass. destruct (_ && _); [|exact H].
  rewrite map_map, <- H. apply map_ext. intro x. destruct (lt _ _); reflexivity.
Qed.

Lemma ids_weigh_positions (cf : Q) (tc i : nat) (ps : list PoolWithAPR) :
  map poolId (weigh_positions cf tc i ps) = map (fun p => id (base p)) ps.
Proof. revert i. induction ps as [|p r IH]; intro i; cbn; [reflexivity | rewrite IH; reflexivity]. Qed.

(** X9: in score-weighted mode, [calculatePositionSizes] returns at most [min(pools, targetPositions)] positions, each for one of the given pools. *)
Theorem score_weighted_count (pools : list PoolWithAPR) (total : num) (maxOpt : option num)
    (minUSD : num) (strategy : option StrategyKey) :
  (length (calculatePositionSizes pools total maxOpt minUSD strategy)
     <= Nat.min (length pools) (targetPositions (DEFAULT_POSITION_SIZING (riskProfile strategy))))%nat /\
  (forall x, In x (calculatePositionSizes pools total maxOpt minUSD strategy) ->
     exists p, In p pools /\ size_poolId x = id (base p)).
Proof.
  unfold calculatePositionSizes. destruct pools as [|p0 r] eqn:Ep; [split; [cbn; lia | intros _ []]|].
  rewrite <- Ep. cbv zeta. destruct (le total (lit 0)); [split; [cbn; lia | intros _ []]|].
  set (tc := Nat.min (length pools) (targetPositions (DEFAULT_POSITION_SIZING (riskProfile strategy)))).
  assert (Htc : length (firstn tc (sort_by_score pools)) = tc)
    by (rewrite length_firstn, length_sort_by_score; unfold tc; lia).
  assert (Hin : forall p, In p (firstn tc (sort_by_score pools)) -> In p pools).
  { intros p Hp. apply (Permutation_in _ (sort_by_score_perm pools)).
    rewrite <- (firstn_skipn tc (sort_by_score pools)). apply in_or_app. left. exact Hp. }
  destruct (le (total_selected_score pools strategy) (lit 0)).
  - split; [rewrite length_map, Htc; lia|].
    intros x Hx. apply in_map_iff in Hx as (p & <- & Hp). exists p. split; [apply Hin; exact Hp | reflexivity].
  - unfold initial_positions, normalize_percentages. cbv zeta. fold tc.
    set (ws := weigh_positions _ tc 0 (firstn tc (sort_by_score pools))).
    set (ns := map _ ws).
    assert (Hids : map poolId (cap_and_redistribute (maxPercent_of maxOpt (DEFAULT_POSITION_SIZING (riskProfile strategy))) ns)
                   = map (fun p => id (base p)) (firstn tc (sort_by_score pools))).
    { rewrite ids_cap_and_redistribute. unfold ns. rewrite map_map. cbn [poolId set_percentage].
      apply ids_weigh_positions. }
    split.
    + rewrite length_map. etransitivity; [apply filter_length_le|].
      rewrite length_map, length_cap_and_redistribute.
      unfold ns, ws. rewrite length_map, length_weigh_positions, Htc. lia.
    + intros x Hx. apply in_map_iff in Hx as (y & <- & Hy). apply filter_In in Hy as [Hy _].
      apply in_map_iff in Hy as (z & <- & Hz). cbn [size_poolId poolId set_targetValueUSD].
      apply (in_map poolId) in Hz. rewrite Hids in Hz. apply in_map_iff in Hz as (p & Ep' & Hp).
      exists p. split; [apply Hin; exact Hp | symmetry; exact Ep'].
Qed.

Module RealFacts.
Import Stdlib.Reals.Reals Stdlib.Reals.Qreals.
Import ImpermanentLoss RealModels.
Local Open Scope R_scope.

Lemma Q2R_zero : Q2R 0 = 0.
Proof. unfold Q2R. cbn. ring. Qed.

Lemma Q2R_half : 0.5 = 1 / 2.
Proof. unfold Q2R. cbn [Qnum Qden]. field. Qed.

Lemma il_nonpos (i p : R) :
  -100 < p ->
  estimateImpermanentLoss i p <= 0 /\ (estimateImpermanentLoss i p = 0 <-> p = 0).
Proof.
  intro Hp. unfold estimateImpermanentLoss.
  assert (Hr : 0 <= 1 + p / 100) by Lra.lra.
  pose proof (sqrt_sqrt _ Hr) as Hs. pose proof (sqrt_pos (1 + p / 100)) as Hs0.
  set (s := sqrt (1 + p / 100)) in *. cbv zeta. rewrite <- Hs.
  assert (Hd : 0 < 1 + s * s) by Lra.nra.
  assert (E : (2 * s / (1 + s * s) - 1) * 100 = - ((s - 1) * (s - 1)) * 100 / (1 + s * s))
    by (field; Lra.lra).
  rewrite E.
  assert (Hq : 0 <= (s - 1) * (s - 1)) by apply Rle_0_sqr.
  split.
  - assert (0 <= (s - 1) * (s - 1) * 100 / (1 + s * s))
      by (unfold Rdiv; apply Rmult_le_pos; [Lra.nra | left; apply Rinv_0_lt_compat; exact Hd]).
    replace (- ((s - 1) * (s - 1)) * 100 / (1 + s * s))
      with (- ((s - 1) * (s - 1) * 100 / (1 + s * s))) by (field; Lra.lra).
    Lra.lra.
  - split.
    + intro H0. unfold Rdiv in H0. apply Rmult_integral in H0 as [H0 | H0].
      * assert (s = 1) by Lra.nra. subst s. Lra.nra.
      * exfalso. apply (Rinv_neq_0_compat (1 + s * s)); [Lra.lra | exact H0].
    + intro H0. assert (s = 1).
      { subst s. rewrite H0. replace (1 + 0 / 100) with 1 by field. apply sqrt_1. }
      rewrite H. field.
Qed.

(** X18: for a price change above -100%, [estimateImpermanentLoss] is above -100. *)
Theorem il_bounded_below (i p : R) :
  -100 < p -> -100 < estimateImpermanentLoss i p.
Proof.
  intro Hp. unfold estimateImpermanentLoss. cbv zeta.
  assert (Hr : 0 < 1 + p / 100) by Lra.lra.
  pose proof (sqrt_lt_R0 _ Hr) as Hs.
  assert (0 < 2 * sqrt (1 + p / 100) / (1 + (1 + p / 100))).
  { unfold Rdiv. apply Rmult_lt_0_compat; [Lra.lra | apply Rinv_0_lt_compat; Lra.lra]. }
  Lra.lra.
Qed.

(** X19: [estimateImpermanentLoss] gives the same loss for a price ratio r and for its reciprocal 1/r. *)
Theorem il_reciprocal_ratio (i p : R) :
  -100 < p ->
  estimateImpermanentLoss i (10000 / (100 + p) - 100) = estimateImpermanentLoss i p.
Proof.
  intro Hp. unfold estimateImpermanentLoss. cbv zeta.
  assert (Hr : 0 < 1 + p / 100) by Lra.lra.
  assert (E : 1 + (10000 / (100 + p) - 100) / 100 = / (1 + p / 100)) by (field; Lra.lra).
  rewrite E, sqrt_inv.
  pose proof (sqrt_lt_R0 _ Hr) as Hs.
  pose proof (sqrt_sqrt _ (Rlt_le _ _ Hr)) as Hss.
  set (s := sqrt (1 + p / 100)) in *. rewrite <- Hss.
  field. repeat split; Lra.nra.
Qed.

(** X20: [calculateFeeVsILTradeoff] is 0 for a null APR, NaN for a NaN APR, and otherwise, for a price move above -100%, at most the fee return, equal to it exactly when the price does not move. *)
Theorem fee_vs_il_tradeoff (pool : PoolWithAPR) (v d : R) :
  (apr pool = None -> calculateFeeVsILTradeoff pool v d = Some 0) /\
  (apr pool = Some None -> calculateFeeVsILTradeoff pool v d = None) /\
  (forall qa, apr pool = Some (Some qa) -> -100 < v ->
     exists x, calculateFeeVsILTradeoff pool v d = Some x /\
               x <= Q2R qa / 365 * d /\ (x = Q2R qa / 365 * d <-> v = 0)).
Proof.
  unfold calculateFeeVsILTradeoff.
  split; [intros ->; reflexivity|]. split; [intros ->; reflexivity|].
  intros qa -> Hv. eexists. split; [reflexivity|].
  destruct (il_nonpos 1 v Hv) as [Hle Heq]. split; [Lra.lra|].
  split; intro H; [apply Heq; Lra.lra | apply Heq in H; Lra.lra].
Qed.

Lemma kelly_value (qa qs : Q) :
  let edgeRatio := Q2R qa / 100 in
  let volatility := Q2R qs / 100 in
  let probProfit := 0.5 + edgeRatio / (volatility * sqrt (2 * PI)) in
  let winLossRatio := edgeRatio / volatility in
  0 <= Rmin 100 (Rmax 0 ((probProfit - (1 - probProfit) / winLossRatio) * 100)) / 2 <= 50.
Proof.
  cbv zeta. set (X := _ * 100).
  assert (H0 : 0 <= Rmin 100 (Rmax 0 X)) by (apply Rmin_glb; [Lra.lra | apply Rmax_l]).
  pose proof (Rmin_l 100 (Rmax 0 X)). Lra.lra.
Qed.

(** X10: [calculateKellyPositionSize] always lies in [[0, 50]]; it is 0 when the APR or its standard deviation is null, NaN or 0; and it is 50, the maximum, for a negative APR whose magnitude is at most the positive standard deviation. *)
Theorem kelly_position_size (pool : PoolWithAPR) (totalCapital : R) :
  0 <= calculateKellyPositionSize pool totalCapital <= 50 /\
  (truthy (coalesce (apr pool) NaN) = false \/ truthy (coalesce (aprStdDev pool) NaN) = false ->
     calculateKellyPositionSize pool totalCapital = 0) /\
  (forall qa qs, apr pool = Some (Some qa) -> aprStdDev pool = Some (Some qs) ->
     (0 < qs)%Q -> (qa < 0)%Q -> (- qs <= qa)%Q ->
     calculateKellyPositionSize pool totalCapital = 50).
Proof.
  unfold calculateKellyPositionSize. split; [|split].
  - destruct (apr pool) as [[qa|]|]; destruct (aprStdDev pool) as [[qs|]|];
      try (split; Lra.lra).
    destruct (negb _ && negb _); [apply kelly_value | split; Lra.lra].
  - destruct (apr pool) as [[qa|]|]; destruct (aprStdDev pool) as [[qs|]|]; try reflexivity.
    unfold coalesce, truthy. intros [H | H]; rewrite H; [reflexivity|].
    rewrite andb_false_r. reflexivity.
  - intros qa qs -> -> Hs Ha Hsa.
    assert (Ea : Qeq_bool qa 0 = false) by (apply Qeq_bool_nz; intro E; rewrite E in Ha; discriminate Ha).
    assert (Es : Qeq_bool qs 0 = false) by (apply Qeq_bool_nz; intro E; rewrite E in Hs; discriminate Hs).
    rewrite Ea, Es. cbn [negb andb]. cbv zeta. rewrite Q2R_half.
    apply Qlt_Rlt in Hs, Ha. apply Qle_Rle in Hsa. rewrite Q2R_zero in Hs, Ha. rewrite Q2R_opp in Hsa.
    set (a := Q2R qa) in *. set (s := Q2R qs) in *.
    assert (Hc : 0 < sqrt (2 * PI)) by (apply sqrt_lt_R0; pose proof PI_RGT_0; Lra.lra).
    set (c := sqrt (2 * PI)) in *.
    assert (E : (1 / 2 + a / 100 / (s / 100 * c) - (1 - (1 / 2 + a / 100 / (s / 100 * c))) / (a / 100 / (s / 100)))
                = 1 / 2 - s / (2 * a) + (s + a) / (s * c))
      by (field; repeat split; Lra.lra).
    rewrite E.
    assert (H1 : 1 / 2 <= - s / (2 * a)).
    { apply (Rmult_le_reg_r (- (2 * a))); [Lra.lra|].
      replace (- s / (2 * a) * - (2 * a)) with s by (field; Lra.lra). Lra.lra. }
    assert (H2 : 0 <= (s + a) / (s * c)).
    { unfold Rdiv. apply Rmult_le_pos; [Lra.lra | left; apply Rinv_0_lt_compat; Lra.nra]. }
    assert (Hx : 100 <= (1 / 2 - s / (2 * a) + (s + a) / (s * c)) * 100).
    { replace (1 / 2 - s / (2 * a)) with (1 / 2 + - s / (2 * a)) by (field; Lra.lra). Lra.lra. }
    rewrite Rmax_right by Lra.lra. rewrite Rmin_left by Lra.lra. field.
Qed.

End RealFacts.

Lemma cache_get_set_same (c : CachedPools) (k : StrategyKey) (e : CacheEntry) :
  cache_get (cache_set c k e) k = e.
Proof. destruct k; reflexivity. Qed.

Lemma cache_get_set_other (c : CachedPools) (k k' : StrategyKey) (e : CacheEntry) :
  k' <> k -> cache_get (cache_set c k e) k' = cache_get c k'.
Proof. intro H. destruct k, k'; try reflexivity; congruence. Qed.

(** X21: [getCachedPoolsByStrategy] serves a non-empty entry younger than six hours without touching the cache; otherwise it refreshes the tier and returns the v3 and v4 results concatenated (a failed query contributes nothing), stamping the tier with the refresh time and leaving the other tiers unchanged. *)
Theorem cached_pools_by_strategy (c : CachedPools) (s : StrategyKey) (now : Z)
    (v3 v4 : QueryResult) (t : Z) :
  ((0 < length (pools (cache_get c s)))%nat -> (now - sixHours < timestamp (cache_get c s))%Z ->
     getCachedPoolsByStrategy c s now v3 v4 t = (pools (cache_get c s), c)) /\
  (length (pools (cache_get c s)) = 0%nat \/ (timestamp (cache_get c s) <= now - sixHours)%Z ->
     fst (getCachedPoolsByStrategy c s now v3 v4 t) = settle v3 ++ settle v4 /\
     timestamp (cache_get (snd (getCachedPoolsByStrategy c s now v3 v4 t)) s) = t /\
     (forall k, k <> s ->
        cache_get (snd (getCachedPoolsByStrategy c s now v3 v4 t)) k = cache_get c k)).
Proof.
  unfold getCachedPoolsByStrategy. cbv zeta. split.
  - intros H1 H2. apply Nat.ltb_lt in H1. apply Z.ltb_lt in H2. rewrite H1, H2. reflexivity.
  - intro H.
    replace (Nat.ltb 0 (length (pools (cache_get c s))) &&
             Z.ltb (now - sixHours) (timestamp (cache_get c s))) with false
      by (symmetry; apply andb_false_iff; destruct H as [H | H];
          [left; rewrite H; reflexivity | right; apply Z.ltb_ge; exact H]).
    cbn [fst snd]. unfold refreshStrategyPools. cbv zeta.
    rewrite !cache_get_set_same. split; [reflexivity|]. split; [reflexivity|].
    intros k Hk. apply cache_get_set_other. exact Hk.
Qed.

Lemma refresh_pools (c : CachedPools) (s : StrategyKey) (v3 v4 : QueryResult) (t : Z) :
  pools (cache_get (refreshStrategyPools c s v3 v4 t) s) = settle v3 ++ settle v4.
Proof. unfold refreshStrategyPools. cbv zeta. rewrite cache_get_set_same. reflexivity. Qed.

(** X22: after a refresh in which both queries failed, within six hours [getAverageAprByStrategy] keeps answering 0 from the empty entry without refreshing, while [getCachedPoolsByStrategy] refreshes again. *)
Theorem empty_refresh_serves_zero_apr (c : CachedPools) (s : StrategyKey) (v3 v4 w3 w4 : QueryResult)
    (t now t' : Z) :
  settle v3 = [] -> settle v4 = [] -> (now - sixHours < t)%Z ->
  getAverageAprByStrategy (refreshStrategyPools c s v3 v4 t) s now w3 w4 t' =
    (lit 0, refreshStrategyPools c s v3 v4 t) /\
  getCachedPoolsByStrategy (refreshStrategyPools c s v3 v4 t) s now w3 w4 t' =
    (settle w3 ++ settle w4,
     refreshStrategyPools (refreshStrategyPools c s v3 v4 t) s w3 w4 t').
Proof.
  intros H3 H4 Ht.
  assert (E : cache_get (refreshStrategyPools c s v3 v4 t) s =
              {| pools := []; averageApr := lit 0; timestamp := t |}).
  { unfold refreshStrategyPools. rewrite H3, H4. cbv zeta. apply cache_get_set_same. }
  split.
  - unfold getAverageAprByStrategy. cbv zeta. rewrite E. cbn [timestamp averageApr].
    replace (Z.ltb (now - sixHours) t) with true by (symmetry; apply Z.ltb_lt; exact Ht).
    reflexivity.
  - unfold getCachedPoolsByStrategy. cbv zeta. rewrite E.
    change (Nat.ltb 0 (length (pools {| pools := []; averageApr := lit 0; timestamp := t |})))
      with false.
    cbv [andb]. rewrite refresh_pools. reflexivity.
Qed.



Lemma qsum_bounds (l : list num) (lo hi : Q) :
  (forall x, In x l -> exists q, x = Some q /\ lo <= q /\ q <= hi) ->
  lo * inject_Z (Z.of_nat (length l)) <= qsum (map getq l) /\
  qsum (map getq l) <= hi * inject_Z (Z.of_nat (length l)).
Proof.
  induction l as [|x r IH]; intro H; cbn [map qsum length].
  - change (inject_Z (Z.of_nat 0)) with 0. lra.
  - destruct (H x (or_introl eq_refl)) as (q & -> & Hl & Hh).
    destruct IH as [IH1 IH2]; [intros y Hy; apply H; right; exact Hy|].
    replace (Z.of_nat (S (length r))) with (Z.of_nat (length r) + 1)%Z by lia.
    rewrite inject_Z_plus. cbn [getq]. change (inject_Z 1) with 1. lra.
Qed.

(** X24: the average APR a refresh stores is 0 when no fetched pool has an APR, and otherwise lies between any bounds that all the fetched pools' APRs respect. *)
Theorem refresh_average_apr (c : CachedPools) (s : StrategyKey) (v3 v4 : QueryResult)
    (t : Z) (lo hi : Q) :
  (forall p a, In p (settle v3 ++ settle v4) -> apr p = Some a ->
     exists q, a = Some q /\ lo <= q /\ q <= hi) ->
  exists q, averageApr (cache_get (refreshStrategyPools c s v3 v4 t) s) = Some q /\
    ((forall p, In p (settle v3 ++ settle v4) -> apr p = None) -> q = 0) /\
    ((exists p a, In p (settle v3 ++ settle v4) /\ apr p = Some a) -> lo <= q /\ q <= hi).
Proof.
  intro H. unfold refreshStrategyPools. cbv zeta. rewrite cache_get_set_same. cbn [averageApr].
  set (ps := settle v3 ++ settle v4) in *.
  set (aprs := flat_map (fun pool => match apr pool with Some a => [a] | None => [] end) ps).
  assert (Hin : forall a, In a aprs <-> exists p, In p ps /\ apr p = Some a).
  { intro a. unfold aprs. rewrite in_flat_map. split.
    - intros (p & Hp & Ha). exists p. split; [exact Hp|].
      destruct (apr p); [destruct Ha as [-> | []]; reflexivity | destruct Ha].
    - intros (p & Hp & Ha). exists p. split; [exact Hp|]. rewrite Ha. left. reflexivity. }
  assert (Hb : forall x, In x aprs -> exists q, x = Some q /\ lo <= q /\ q <= hi).
  { intros x Hx. apply Hin in Hx as (p & Hp & Ha). exact (H p x Hp Ha). }
  destruct (Nat.ltb 0 (length aprs)) eqn:En.
  - apply Nat.ltb_lt in En.
    destruct (sum_some aprs) as (S & HS & HSq).
    { intros x Hx. destruct (Hb x Hx) as (q & -> & _). discriminate. }
    destruct (qsum_bounds aprs lo hi Hb) as [B1 B2].
    set (n := inject_Z (Z.of_nat (length aprs))) in *.
    assert (Hn : 0 < n) by (unfold n; change 0 with (inject_Z 0); rewrite <- Zlt_Qlt; lia).
    rewrite HS. unfold div, lit. rewrite (Qeq_bool_pos n Hn).
    eexists. split; [reflexivity|]. split.
    + intro Hnone. exfalso. destruct aprs as [|a r] eqn:Ea; [cbn in En; lia|].
      destruct (proj1 (Hin a) (or_introl eq_refl)) as (p & Hp & Ha).
      rewrite (Hnone p Hp) in Ha. discriminate.
    + intros _. rewrite <- HSq in B1, B2. split.
      * apply Qle_shift_div_l; [exact Hn | lra].
      * apply Qle_shift_div_r; [exact Hn | lra].
  - apply Nat.ltb_ge in En. exists 0. split; [reflexivity|]. split; [intros _; reflexivity|].
    intros (p & a & Hp & Ha). exfalso.
    assert (In a aprs) by (apply Hin; exists p; split; assumption).
    destruct aprs; [destruct H0 | cbn in En; lia].
Qed.

(** X13: [needsRangeAdjustment] returns [true] whenever the price lies in the outer fifth of the current range on either side, or outside it, whatever the optimal range and the threshold. *)
Theorem range_adjust_near_boundary (cur opt : PriceRange) (l u p : Q) (thr : num) :
  lowerPrice cur = Some l -> upperPrice cur = Some u -> l < u ->
  p < l + (u - l) / 5 \/ u - (u - l) / 5 < p ->
  needsRangeAdjustment cur opt (lit p) thr = true.
Proof.
  intros Hl Hu Hlu Hp. unfold needsRangeAdjustment. cbv zeta. rewrite Hl, Hu.
  apply orb_true_iff. right.
  assert (Hw : 0 < u - l) by lra.
  unfold sub, lift2, div, lit, lt. rewrite (Qeq_bool_pos _ Hw).
  apply orb_true_iff. destruct Hp as [Hp | Hp]; [left | right]; apply qltb_true;
    apply Qlt_shift_div_r; try exact Hw.
  - assert (E : (1 # 5) * (u - l) == (u - l) / 5) by field. rewrite E. lra.
  - assert (E : (1 # 5) * (u - l) == (u - l) / 5) by field. rewrite E. lra.
Qed.

(** ** Instances of the further properties *)

Lemma regressionSlope_linear_witness :
  exists s, regressionSlope (map lit [0; 1; 2]) (map (fun x => lit (3 + 2 * x)) [0; 1; 2]) = Some (Some s)
            /\ s == 2.
Proof.
  apply (regressionSlope_linear [0; 1; 2] 3 2 0 1); [simpl; auto | simpl; auto | intro H; discriminate H].
Defined.

Lemma rebalance_missing_pool_exit_witness :
  In {| actionType := EXIT_POSITION; act_poolId := "0xlow"; currentSize := lit 3000;
        targetSize := lit 0; sizeChangePercent := lit (-100);
        reasonCodes := ["pool_tvl_decline"%string]; priority := lit 9 |}
     (generateRebalanceRecommendations needsRangeAdjustment [pool_healthy] rebalance_options).
Proof.
  apply (rebalance_missing_pool_exit needsRangeAdjustment [pool_healthy] rebalance_options
           {| hp_poolId := "0xlow"; size := lit 3000;
              priceRange := Some {| lowerPrice := lit (95 # 100); upperPrice := lit (105 # 100) |} |}).
  - simpl. auto.
  - intros pool [<- | []]. discriminate.
Defined.

Lemma rebalance_enter_actions_witness :
  let a := {| actionType := ENTER_POSITION; act_poolId := "0xnew"; currentSize := lit 0;
              targetSize := lit (8000 # 10); sizeChangePercent := lit 100;
              reasonCodes := ["new_opportunity"%string]; priority := lit 5 |} in
  (exists q, availableLiquidity rebalance_options = Some (Some q) /\ 0 < q) /\
  ~ In (act_poolId a) (map hp_poolId (currentPositions rebalance_options)) /\
  currentSize a = lit 0 /\ priority a = lit 5 /\
  exists pool, In pool [pool_healthy; pool_low_apr; pool_new] /\ id (base pool) = act_poolId a /\
    apr pool <> None /\ (forall q, apr pool = Some (Some q) -> 5 <= q) /\
    (forall qc, correlation pool = Some (Some qc) ->
                correlationThreshold (riskProfile (strategy rebalance_options)) <= qc).
Proof.
  apply (rebalance_enter_actions needsRangeAdjustment [pool_healthy; pool_low_apr; pool_new]
           rebalance_options).
  - vm_compute. right. left. reflexivity.
  - reflexivity.
Defined.

Lemma rebalance_action_count_witness :
  (Z.of_nat (length (generateRebalanceRecommendations needsRangeAdjustment
                       [pool_healthy; pool_low_apr; pool_new] rebalance_options)) <= 3)%Z.
Proof.
  exact (rebalance_action_count needsRangeAdjustment [pool_healthy; pool_low_apr; pool_new]
           rebalance_options 3 eq_refl).
Defined.

Lemma optimal_range_no_adjustment_witness :
  needsRangeAdjustment (calculateOptimalPriceRange pool_healthy (lit 1) (Some medium))
                       (calculateOptimalPriceRange pool_healthy (lit 1) (Some medium))
                       (lit 1) (lit 15) = false.
Proof.
  apply (optimal_range_no_adjustment pool_healthy 1 15 (Some medium)).
  - intro H. discriminate H.
  - lra.
Defined.

Lemma latest_apr_nonneg_witness :
  exists q, mul (mul (div (lit 10) (lit 1000)) (lit 365)) (lit 100) = Some q /\ 0 <= q.
Proof. apply (latest_apr_nonneg pool_tvl_1000). reflexivity. Defined.

Lemma best_pools_ranked_witness :
  Sorted (desc_by (fun p => coalesce (score p) (lit 0)))
         (getBestPoolsWithScore (sample_options 0) 0 sample_pools) /\
  (Z.of_nat (length (getBestPoolsWithScore (sample_options 0) 0 sample_pools)) <= 10)%Z.
Proof.
  destruct (best_pools_ranked (sample_options 0) 0 sample_pools) as [Hs [Hl _]].
  - intros p Hp _. simpl in Hp. destruct Hp as [<- | [<- | []]]; vm_compute; eexists; reflexivity.
  - split; [exact Hs | apply Hl; discriminate].
Defined.


Lemma empty_refresh_serves_zero_apr_witness :
  getAverageAprByStrategy (refreshStrategyPools warm_cache medium (Rejected "timeout") (Rejected "timeout") 1000)
    medium 2000 (Fulfilled [pool_healthy]) (Rejected "timeout") 2000 =
    (lit 0, refreshStrategyPools warm_cache medium (Rejected "timeout") (Rejected "timeout") 1000) /\
  getCachedPoolsByStrategy (refreshStrategyPools warm_cache medium (Rejected "timeout") (Rejected "timeout") 1000)
    medium 2000 (Fulfilled [pool_healthy]) (Rejected "timeout") 2000 =
    ([pool_healthy] ++ [],
     refreshStrategyPools (refreshStrategyPools warm_cache medium (Rejected "timeout") (Rejected "timeout") 1000)
       medium (Fulfilled [pool_healthy]) (Rejected "timeout") 2000).
Proof.
  apply (empty_refresh_serves_zero_apr warm_cache medium (Rejected "timeout") (Rejected "timeout")
           (Fulfilled [pool_healthy]) (Rejected "timeout") 1000 2000 2000); reflexivity.
Defined.

Lemma refresh_average_apr_witness :
  exists q, averageApr (cache_get (refreshStrategyPools initial_cache medium
                                     (Fulfilled [pool_healthy; pool_low_apr]) (Rejected "timeout") 1000)
                                  medium) = Some q /\
    ((forall p, In p (settle (Fulfilled [pool_healthy; pool_low_apr]) ++ settle (Rejected "timeout")) ->
                apr p = None) -> q = 0) /\
    ((exists p a, In p (settle (Fulfilled [pool_healthy; pool_low_apr]) ++ settle (Rejected "timeout")) /\
                  apr p = Some a) -> 3 <= q /\ q <= 25).
Proof.
  apply refresh_average_apr.
  intros p a Hp. simpl in Hp. destruct Hp as [<- | [<- | []]]; intro H; simpl in H; injection H as <-;
    eexists; (split; [reflexivity | split; lra]).
Defined.

Lemma range_adjust_near_boundary_witness :
  needsRangeAdjustment {| lowerPrice := lit (9 # 10); upperPrice := lit (11 # 10) |}
                       {| lowerPrice := lit (9 # 10); upperPrice := lit (11 # 10) |}
                       (lit (12 # 10)) (lit 15) = true.
Proof.
  apply (range_adjust_near_boundary _ _ (9 # 10) (11 # 10) (12 # 10) (lit 15));
    [reflexivity | reflexivity | reflexivity | right; reflexivity].
Defined.

Module RealWitnesses.
Import Stdlib.Reals.Reals.
Import ImpermanentLoss.
Local Open Scope R_scope.

Lemma il_bounded_below_witness : -100 < estimateImpermanentLoss 1 300.
Proof. apply RealFacts.il_bounded_below. Lra.lra. Defined.

Lemma il_reciprocal_ratio_witness :
  estimateImpermanentLoss 1 (10000 / (100 + 300) - 100) = estimateImpermanentLoss 1 300.
Proof. apply RealFacts.il_reciprocal_ratio. Lra.lra. Defined.

End RealWitnesses.
